(** * RuleChef: the token model and the C++ emitter

    A shallow embedding of [tokens.py], [emit.py] and of the variable
    grammar of [parser.py].  Python objects are dynamically typed; where
    the source reads an attribute or calls a method that only some classes
    have, the embedding returns the exception Python raises. *)

From stdpp Require Import gmap strings list pretty.
From Stdlib Require Import Ascii.
Set Warnings "-register-all,-clear-no-such-hyp".
Open Scope string_scope.

(** * Part I: the program

    ** Python values, exceptions and the builtins the source uses *)

Module Py.

Inductive Exc :=
| AttributeError | TypeError | ValueError | NotImplementedError
| AssertionError | IndexError | NameError.

(** A Python call either raises ([inl]) or returns ([inr]). *)
Definition result (A : Type) : Type := (Exc + A)%type.

Definition rbind {A B} (m : result A) (k : A → result B) : result B :=
  match m with inl e => inl e | inr a => k a end.

(** The values [get_size] can return: [None], an [int], a tuple. *)
Inductive Val :=
| None_
| Int (z : Z)
| Tuple (items : list Val).

(** [a + b] on these values. *)
Definition add (a b : Val) : result Val :=
  match a, b with
  | Int x, Int y => inr (Int (x + y))
  | Tuple x, Tuple y => inr (Tuple (x ++ y)%list)
  | _, _ => inl TypeError
  end.

Definition nl : string := String (ascii_of_nat 10) "".

(** [sep.join(l)] *)
Fixpoint join (sep : string) (l : list string) : string :=
  match l with
  | [] => ""
  | [x] => x
  | x :: r => x +:+ sep +:+ join sep r
  end.

(** [str(v)], as an f-string formats it. *)
Fixpoint str (v : Val) : string :=
  match v with
  | None_ => "None"
  | Int z => pretty z
  | Tuple [x] => "(" +:+ str x +:+ ",)"
  | Tuple l => "(" +:+ join ", " (map str l) +:+ ")"
  end.

(** [c * n] for a one-character string, [n >= 0]. *)
Fixpoint repeat_char (c : ascii) (n : nat) : string :=
  match n with
  | 0 => ""
  | S n => String c (repeat_char c n)
  end.

Definition spaces (n : nat) : string := repeat_char " " n.

(** [s.lower()], on the ASCII range. *)
Definition lower_char (c : ascii) : ascii :=
  let n := nat_of_ascii c in
  if ((65 <=? n) && (n <=? 90))%nat then ascii_of_nat (n + 32) else c.

Fixpoint lower (s : string) : string :=
  match s with
  | "" => ""
  | String c r => String (lower_char c) (lower r)
  end.

Fixpoint contains_char (c : ascii) (s : string) : bool :=
  match s with
  | "" => false
  | String d r => if decide (c = d) then true else contains_char c r
  end.

(** [s.rsplit(sep, 1)[-1]] for a one-character separator: what follows
    the last separator, the whole string when there is none. *)
Fixpoint rsplit1_last (sep : ascii) (s : string) : string :=
  match s with
  | "" => ""
  | String c r =>
      if contains_char sep r then rsplit1_last sep r
      else if decide (c = sep) then r else s
  end.

(** [s.startswith(p)] and [s[len(p):]]. *)
Fixpoint startswith (p s : string) : bool :=
  match p, s with
  | "", _ => true
  | String a p', String b s' => if decide (a = b) then startswith p' s' else false
  | _, _ => false
  end.

Fixpoint slice_from (n : nat) (s : string) : string :=
  match n, s with
  | 0, _ => s
  | S n, String _ r => slice_from n r
  | S _, "" => ""
  end.

(** [int(s, 0)]: an optional sign, then a literal in base 16, 8 or 2
    behind its prefix, or in base 10 (no leading zero unless the
    literal is zero).  Surrounding white space and digit-group
    underscores, which [int] also takes, are outside this model: the
    grammar's [number] has neither. *)
Definition digit_val (c : ascii) : option Z :=
  let n := Z.of_nat (nat_of_ascii c) in
  (if (48 <=? n) && (n <=? 57) then Some (n - 48)
   else if (97 <=? n) && (n <=? 102) then Some (n - 87)
   else if (65 <=? n) && (n <=? 70) then Some (n - 55)
   else None)%Z.

Fixpoint digits (base : Z) (acc : Z) (s : string) : option Z :=
  match s with
  | "" => Some acc
  | String c r =>
      match digit_val c with
      | Some d => if (d <? base)%Z then digits base (acc * base + d)%Z r else None
      | None => None
      end
  end.

Definition nonempty_digits (base : Z) (s : string) : option Z :=
  match s with "" => None | _ => digits base 0 s end.

Definition unsigned_literal (s : string) : option Z :=
  match s with
  | String "0" (String c r) =>
      if decide (c = "x"%char ∨ c = "X"%char) then nonempty_digits 16 r
      else if decide (c = "o"%char ∨ c = "O"%char) then nonempty_digits 8 r
      else if decide (c = "b"%char ∨ c = "B"%char) then nonempty_digits 2 r
      else match digits 10 0 s with
           | Some 0 => Some 0
           | _ => None
           end
  | _ => nonempty_digits 10 s
  end%Z.

Definition int0 (s : string) : result Z :=
  let (neg, body) :=
    match s with
    | String "-" r => (true, r)
    | String "+" r => (false, r)
    | _ => (false, s)
    end in
  match unsigned_literal body with
  | Some z => inr (if neg then - z else z)%Z
  | None => inl ValueError
  end.

(** A generator: the items it yields, then the exception that ends it,
    if one does. *)
Definition gen (A : Type) : Type := (list A * option Exc)%type.

Definition yield_from {A} (g h : gen A) : gen A :=
  match g.2 with
  | Some e => g
  | None => ((g.1 ++ h.1)%list, h.2)
  end.

End Py.

Notation "x <-? m ; k" := (Py.rbind m (λ x, k))
  (at level 100, m at next level, right associativity, only parsing).

(** * Part I: the program

    ** Python values, exceptions and the builtins the source uses *)

Import Py.

(** ** tokens.py: the token model *)

Definition ALL_OP_NAMES : list string := [
  "COPY"; "LOAD"; "STORE"; "BRANCH"; "CBRANCH"; "BRANCHIND"; "CALL"; "CALLIND";
  "CALLOTHER"; "RETURN"; "INT_EQUAL"; "INT_NOTEQUAL"; "INT_SLESS";
  "INT_SLESSEQUAL"; "INT_LESS"; "INT_LESSEQUAL"; "INT_ZEXT"; "INT_SEXT";
  "INT_ADD"; "INT_SUB"; "INT_CARRY"; "INT_SCARRY"; "INT_SBORROW"; "INT_2COMP";
  "INT_NEGATE"; "INT_XOR"; "INT_AND"; "INT_OR"; "INT_LEFT"; "INT_RIGHT";
  "INT_SRIGHT"; "INT_MULT"; "INT_DIV"; "INT_SDIV"; "INT_REM"; "INT_SREM";
  "BOOL_NEGATE"; "BOOL_XOR"; "BOOL_AND"; "BOOL_OR"; "FLOAT_EQUAL";
  "FLOAT_NOTEQUAL"; "FLOAT_LESS"; "FLOAT_LESSEQUAL"; "FLOAT_NAN"; "FLOAT_ADD";
  "FLOAT_DIV"; "FLOAT_MULT"; "FLOAT_SUB"; "FLOAT_NEG"; "FLOAT_ABS";
  "FLOAT_SQRT"; "FLOAT_INT2FLOAT"; "FLOAT_FLOAT2FLOAT"; "FLOAT_TRUNC";
  "FLOAT_CEIL"; "FLOAT_FLOOR"; "FLOAT_ROUND"; "MULTIEQUAL"; "INDIRECT";
  "PIECE"; "SUBPIECE"; "CAST"; "PTRADD"; "PTRSUB"; "SEGMENTOP"; "CPOOLREF";
  "NEW"; "INSERT"; "EXTRACT"; "POPCOUNT" ].

Definition COMMUTATIVE_OP_NAMES : list string := [
  "INT_EQUAL"; "INT_NOTEQUAL"; "INT_ADD"; "INT_XOR"; "INT_AND"; "INT_OR";
  "INT_MULT"; "BOOL_XOR"; "BOOL_AND"; "BOOL_OR"; "FLOAT_EQUAL"; "FLOAT_NOTEQUAL";
  "FLOAT_ADD"; "FLOAT_MULT" ].

(** The subclasses of [TOK_BINARY_OPERATION]; each sets [_name] and
    [_c_token], all inherit [_size = 8]. *)
Inductive BinaryOperation :=
| TOK_BINOP_ADD | TOK_BINOP_SUB | TOK_BINOP_MULT | TOK_BINOP_AND
| TOK_BINOP_OR | TOK_BINOP_XOR | TOK_BINOP_LSHIFT | TOK_BINOP_RSHIFT.

Definition _c_token (k : BinaryOperation) : string :=
  match k with
  | TOK_BINOP_ADD => "+" | TOK_BINOP_SUB => "-" | TOK_BINOP_MULT => "*"
  | TOK_BINOP_AND => "&" | TOK_BINOP_OR => "|" | TOK_BINOP_XOR => "^"
  | TOK_BINOP_LSHIFT => "<<" | TOK_BINOP_RSHIFT => ">>"
  end.

Definition binop_name (k : BinaryOperation) : string :=
  match k with
  | TOK_BINOP_ADD => "TOK_BINOP_ADD" | TOK_BINOP_SUB => "TOK_BINOP_SUB"
  | TOK_BINOP_MULT => "TOK_BINOP_MULT" | TOK_BINOP_AND => "TOK_BINOP_AND"
  | TOK_BINOP_OR => "TOK_BINOP_OR" | TOK_BINOP_XOR => "TOK_BINOP_XOR"
  | TOK_BINOP_LSHIFT => "TOK_BINOP_LSHIFT" | TOK_BINOP_RSHIFT => "TOK_BINOP_RSHIFT"
  end.

(** The token classes, each with the attributes its [__init__] stores.
    [TOK_NUMBER._size] is the [str] or the [TOK_SIZEOF] it was given. *)
Inductive Token :=
| TOK_VAR (_name : string)
| TOK_SIZEOF (_variable : Token)
| TOK_NUMBER (_val : Z) (_size : string + Token) (_val_repr : string)
             (_size_val : option Z)
| TOK_BINARY_OPERATION (cls : BinaryOperation) (_left _right : Token)
| TOK_OPCODE (_name : string) (_args : list Token)
| TOK_OPCODE_OR (_elements : list Token).

(** [TOK_NUMBER.__init__] *)
Definition TOK_NUMBER_init (val : string) (size : string + Token) : result Token :=
  v <-? int0 val;
  match size with
  | inl s => sv <-? int0 s; inr (TOK_NUMBER v size val (Some sv))
  | inr _ => inr (TOK_NUMBER v size val None)
  end.

(** [TOK_OPCODE_OR.__init__] *)
Definition TOK_OPCODE_OR_init (elements : list Token) : result Token :=
  if decide (1 < length elements) then inr (TOK_OPCODE_OR elements)
  else inl AssertionError.

Definition mapM {A B} (f : A → result B) : list A → result (list B) :=
  fix go l :=
    match l with
    | [] => inr []
    | a :: r => b <-? f a; bs <-? go r; inr (b :: bs)
    end.

Definition yield_from_each {A B} (f : A → gen B) : list A → gen B :=
  fix go l :=
    match l with
    | [] => ([], None)
    | a :: r => yield_from (f a) (go r)
    end.

(** [to_c]; [TOK_OPCODE] and [TOK_OPCODE_OR] inherit [Token.to_c]. *)
Fixpoint to_c (t : Token) : result string :=
  match t with
  | TOK_VAR name => inr name
  | TOK_SIZEOF v => s <-? to_c v; inr (s +:+ "->getSize()")
  | TOK_NUMBER _ _ val_repr _ => inr val_repr
  | TOK_BINARY_OPERATION k l r =>
      a <-? to_c l; b <-? to_c r;
      inr ("(" +:+ a +:+ " " +:+ _c_token k +:+ " " +:+ b +:+ ")")
  | TOK_OPCODE _ _ | TOK_OPCODE_OR _ => inl NotImplementedError
  end.

(** [TOK_NUMBER.size_to_c]; no other class has the method. *)
Definition size_to_c (t : Token) : result string :=
  match t with
  | TOK_NUMBER _ (inl s) _ _ => inr s
  | TOK_NUMBER _ (inr sz) _ _ =>
      match sz with
      | TOK_SIZEOF _ => to_c sz
      | _ => inl AssertionError
      end
  | _ => inl AttributeError
  end.

Fixpoint to_pretty (t : Token) : result string :=
  match t with
  | TOK_VAR name =>
      if startswith "autovar_" name then inr (slice_from (String.length "autovar_") name)
      else inr name
  | TOK_SIZEOF v => s <-? to_pretty v; inr ("|" +:+ s +:+ "|")
  | TOK_NUMBER _ size val_repr size_val =>
      match size_val with
      | Some 8%Z => inr val_repr
      | None =>
          match size with
          | inr sz => s <-? to_pretty sz; inr (val_repr +:+ ":" +:+ s)
          | inl _ => inl AttributeError
          end
      | Some _ =>
          match size with
          | inl s => inr (val_repr +:+ ":" +:+ s)
          | inr _ => inl TypeError
          end
      end
  | TOK_BINARY_OPERATION k l r =>
      a <-? to_pretty l; b <-? to_pretty r;
      inr (a +:+ " " +:+ _c_token k +:+ " " +:+ b +:+ ")")
  | TOK_OPCODE name args =>
      l <-? mapM to_pretty args;
      inr (name +:+ "(" +:+ join ", " l +:+ ")")
  | TOK_OPCODE_OR elements =>
      l <-? mapM to_pretty elements;
      inr (join " | " l)
  end.

(** [get_variables], a generator in every class. *)
Fixpoint get_variables (t : Token) : gen Token :=
  match t with
  | TOK_VAR _ => ([t], None)
  | TOK_SIZEOF v => ([v], None)
  | TOK_NUMBER _ size _ size_val =>
      match size_val with
      | Some _ => ([], None)
      | None =>
          match size with
          | inr sz => get_variables sz
          | inl _ => ([], Some AttributeError)
          end
      end
  | TOK_BINARY_OPERATION _ l r => yield_from (get_variables l) (get_variables r)
  | TOK_OPCODE _ args => yield_from_each get_variables args
  | TOK_OPCODE_OR elements => yield_from_each get_variables elements
  end.

Definition SAME_SIZE_OP_NAMES : list string := [
  "COPY"; "INT_ADD"; "INT_SUB"; "INT_2COMP"; "INT_NEGATE";
  "INT_XOR"; "INT_AND"; "INT_OR"; "INT_LEFT"; "INT_RIGHT";
  "INT_SRIGHT"; "INT_MULT"; "INT_DIV"; "INT_REM"; "INT_SDIV";
  "INT_SREM"; "FLOAT_ADD"; "FLOAT_SUB"; "FLOAT_MULT"; "FLOAT_DIV";
  "FLOAT_NEG"; "FLOAT_ABS"; "FLOAT_SQRT"; "FLOAT_CEIL";
  "FLOAT_FLOOR"; "FLOAT_ROUND" ].

Definition BOOLEAN_OP_NAMES : list string := [
  "INT_EQUAL"; "INT_NOTEQUAL"; "INT_LESS"; "INT_SLESS";
  "INT_LESSEQUAL"; "INT_SLESSEQUAL"; "INT_CARRY"; "INT_SCARRY";
  "INT_SBORROW"; "BOOL_NEGATE"; "BOOL_XOR"; "BOOL_AND"; "BOOL_OR";
  "FLOAT_EQUAL"; "FLOAT_NOTEQUAL"; "FLOAT_LESS"; "FLOAT_LESSEQUAL";
  "FLOAT_NAN" ].

(** [get_size].  [TOK_NUMBER] does not override [Token.get_size];
    [TOK_BINARY_OPERATION.get_size] reads the unbound name [left]. *)
Fixpoint get_size (t : Token) : result Val :=
  match t with
  | TOK_VAR _ => inr None_
  | TOK_SIZEOF _ => inr (Int 8)
  | TOK_NUMBER _ _ _ _ => inl NotImplementedError
  | TOK_BINARY_OPERATION _ _ _ => inl NameError
  | TOK_OPCODE name args =>
      if decide (name = "PIECE") then
        match args with
        | [] => inl IndexError
        | a0 :: rest =>
            s0 <-? get_size a0;
            match rest with
            | [] => inl IndexError
            | a1 :: _ =>
                s1 <-? get_size a1;
                s <-? add s0 s1;
                inr (Tuple [s])
            end
        end
      else if decide (name ∈ SAME_SIZE_OP_NAMES) then
        match args with
        | [] => inl IndexError
        | a0 :: _ => get_size a0
        end
      else if decide (name ∈ BOOLEAN_OP_NAMES) then inr (Int 1)
      else inr None_
  | TOK_OPCODE_OR _ => inr None_
  end.

(** [TOK_VAR.__eq__]; the other classes compare by identity, and the
    operands compared here are distinct objects. *)
Definition tok_eq (a b : Token) : bool :=
  match a, b with
  | TOK_VAR x, TOK_VAR y => bool_decide (x = y)
  | _, _ => false
  end.

(** [TOK_CONSTRAINT]; [_or_func_name] is assigned by [to_check_c]. *)
Record TOK_CONSTRAINT := {
  _left : Token;
  _comparison_op : string;
  _right : Token;
  _or_func_name : option string;
}.

Definition TOK_CONSTRAINT_init (left : Token) (comparison : string) (right : Token) :=
  {| _left := left; _comparison_op := comparison; _right := right;
     _or_func_name := None |}.

(** ** emit.py: the emitter *)

(** The two sets an [Emitter] instance holds. *)
Record Emitter := {
  _variables : gset string;
  _declared_vars : gset string;
}.

(** [Emitter.__init__] *)
Definition Emitter_init : Emitter :=
  {| _variables := ∅; _declared_vars := ∅ |}.

(** A method of the emitter reads and updates [self], and may raise. *)
Definition M (A : Type) : Type := Emitter → result (A * Emitter).

Definition ret {A} (a : A) : M A := λ st, inr (a, st).

Definition raise {A} (e : Exc) : M A := λ _, inl e.

Definition bind {A B} (m : M A) (k : A → M B) : M B :=
  λ st, match m st with
        | inl e => inl e
        | inr (a, st') => k a st'
        end.

Definition lift {A} (r : result A) : M A :=
  λ st, match r with inl e => inl e | inr a => inr (a, st) end.

Notation "x <- m ;; k" := (bind m (λ x, k))
  (at level 100, m at next level, right associativity, only parsing).

(** [for i, x in enumerate(l): out += body(i, x)], from index [i]. *)
Definition for_enumerate {A} (body : nat → A → M string) : nat → list A → M string :=
  fix go i l :=
    match l with
    | [] => ret ""
    | x :: r => s <- body i x;; t <- go (S i) r;; ret (s +:+ t)
    end.

(** [self._variables.add(name)] *)
Definition variables_add (name : string) : M unit :=
  λ st, inr ((), {| _variables := {[name]} ∪ _variables st;
                    _declared_vars := _declared_vars st |}).

(** [f"{prefix}_{i}"] *)
Definition free_name (prefix : string) (i : nat) : string :=
  prefix +:+ "_" +:+ pretty i.

(** The loop of [_get_free_name] over [n] indices from [i]. *)
Fixpoint first_free (prefix : string) (vars : gset string) (i n : nat) : option string :=
  match n with
  | 0 => None
  | S n' =>
      let name := free_name prefix i in
      if decide (name ∈ vars) then first_free prefix vars (S i) n'
      else Some name
  end.

Definition _get_free_name (prefix : string) : M string :=
  λ st, match first_free prefix (_variables st) 0 1000 with
        | Some name =>
            inr (name, {| _variables := {[name]} ∪ _variables st;
                          _declared_vars := _declared_vars st |})
        | None => inl ValueError
        end.

Definition _emit_create_var (variable : Token) (parent_op_name : string)
    (input_number : nat) : M string :=
  v <- lift (to_c variable);;
  ret ("  data.opSetInput(" +:+ parent_op_name +:+ ", " +:+ v +:+ ", "
       +:+ pretty input_number +:+ ");" +:+ nl).

(** The second statement names [op], not [parent_op_name]. *)
Definition _emit_create_const (constant : Token) (parent_op_name : string)
    (input_number : nat) : M string :=
  const_varnode_name <- _get_free_name "out_const";;
  sz <- lift (size_to_c constant);;
  c <- lift (to_c constant);;
  ret ("  Varnode* " +:+ const_varnode_name +:+ " = data.newConstant(" +:+ sz
       +:+ ", " +:+ c +:+ ");" +:+ nl
       +:+ "  data.opSetInput(op, " +:+ const_varnode_name +:+ ", "
       +:+ pretty input_number +:+ ");" +:+ nl).

Fixpoint _emit_create_opcode (opcode : Token) (parent_op_name : string)
    (input_num : nat) {struct opcode} : M string :=
  new_op_name <- _get_free_name "out_op";;
  new_out_varname <- _get_free_name "out_varnode";;
  match opcode with
  | TOK_OPCODE name args =>
      size <- lift (get_size opcode);;
      let out :=
        "  PcodeOp* " +:+ new_op_name +:+ " = data.newOp(" +:+ pretty (length args)
          +:+ ", " +:+ parent_op_name +:+ "->getAddr());" +:+ nl
        +:+ "  data.opSetOpcode(" +:+ new_op_name +:+ ", CPUI_" +:+ name +:+ ");" +:+ nl
        +:+ "  Varnode* " +:+ new_out_varname +:+ " = data.newUniqueOut("
          +:+ str size +:+ ", " +:+ new_op_name +:+ ");" +:+ nl
        +:+ "  data.opInsertBefore(" +:+ new_op_name +:+ ", " +:+ parent_op_name
          +:+ ");" +:+ nl
        +:+ "  data.opSetInput(" +:+ parent_op_name +:+ ", " +:+ new_out_varname
          +:+ ", " +:+ pretty input_num +:+ ");" +:+ nl +:+ nl in
      rest <- for_enumerate (λ i arg,
                match arg with
                | TOK_OPCODE _ _ => _emit_create_opcode arg new_op_name i
                | TOK_VAR _ => _emit_create_var arg new_op_name i
                | _ => _emit_create_const arg new_op_name i
                end) 0 args;;
      ret (out +:+ rest)
  | _ => raise AttributeError
  end.

Definition _emit_declare_var (variable : Token) : M string :=
  v <- lift (to_c variable);;
  λ st, inr ("  Varnode* " +:+ v +:+ ";" +:+ nl,
             {| _variables := _variables st;
                _declared_vars := {[v]} ∪ _declared_vars st |}).

Definition _emit_create_varnode (var_name var_source : string) (num_indent : nat)
    : M string :=
  λ st,
    let type_name :=
      if decide (var_name ∉ _declared_vars st) then "Varnode* " else "" in
    inr (spaces num_indent +:+ type_name +:+ var_name +:+ " = " +:+ var_source
         +:+ ";" +:+ nl, st).

Definition _emit_check (left op right : string) (num_indent : nat) : string :=
  spaces num_indent +:+ "if (" +:+ left +:+ " " +:+ op +:+ " " +:+ right
  +:+ ") return 0;" +:+ nl.

Definition _emit_check_equality (name_a name_b : string) (num_indent : nat) :=
  _emit_check name_a "!=" name_b num_indent.

Definition _emit_check_inequality (name_a name_b : string) (num_indent : nat) :=
  _emit_check name_a "==" name_b num_indent.

Definition _emit_check_greater (name_a name_b : string) (num_indent : nat) :=
  _emit_check name_a "<=" name_b num_indent.

Definition _emit_check_greater_equal (name_a name_b : string) (num_indent : nat) :=
  _emit_check name_a "<" name_b num_indent.

Definition _emit_check_less (name_a name_b : string) (num_indent : nat) :=
  _emit_check name_a ">=" name_b num_indent.

Definition _emit_check_less_equal (name_a name_b : string) (num_indent : nat) :=
  _emit_check name_a ">" name_b num_indent.

Definition _emit_check_is_constant (varnode_name : string) (num_indent : nat) : string :=
  spaces num_indent +:+ "if ((! " +:+ varnode_name +:+ "->isConstant()) return 0;".

(** What a caller passes as [const_val]: a token, or (from
    [TOK_CONSTRAINT.to_check_c]) the [str] that [to_c] returned. *)
Inductive Obj :=
| OStr (s : string)
| OTok (t : Token).

(** The attribute [_size]: the class attribute [8] of a binary
    operation, the [str] or token a [TOK_NUMBER] stores. *)
Inductive SizeAttr :=
| SizeInt (z : Z)
| SizeStr (s : string)
| SizeTok (t : Token).

Definition attr_size (o : Obj) : result SizeAttr :=
  match o with
  | OTok (TOK_NUMBER _ (inl s) _ _) => inr (SizeStr s)
  | OTok (TOK_NUMBER _ (inr t) _ _) => inr (SizeTok t)
  | OTok (TOK_BINARY_OPERATION _ _ _) => inr (SizeInt 8)
  | _ => inl AttributeError
  end.

(** [_size == 8]: a [str] or a token never equals the [int]. *)
Definition size_eq_8 (a : SizeAttr) : bool :=
  match a with
  | SizeInt z => bool_decide (z = 8%Z)
  | _ => false
  end.

Definition obj_to_c (o : Obj) : result string :=
  match o with
  | OStr _ => inl AttributeError
  | OTok t => to_c t
  end.

(** [const_val._size.to_c()] *)
Definition size_attr_to_c (a : SizeAttr) : result string :=
  match a with
  | SizeTok t => to_c t
  | _ => inl AttributeError
  end.

Definition masked_const_decl (c sz : string) (num_indent : nat) : string :=
  spaces num_indent +:+ "uintb masked_const = " +:+ c
  +:+ " & ((((uintb) 1) << (8 * " +:+ sz +:+ ")) - 1);" +:+ nl.

Definition _emit_check_constant (varnode_name op : string) (const_val : Obj)
    (num_indent : nat) : result string :=
  size <-? attr_size const_val;
  if size_eq_8 size then
    c <-? obj_to_c const_val;
    inr (spaces num_indent +:+ "if ((! " +:+ varnode_name +:+ "->isConstant()) || ("
         +:+ varnode_name +:+ "->getOffset() " +:+ op +:+ " " +:+ c +:+ ")) return 0;"
         +:+ nl)
  else
    c <-? obj_to_c const_val;
    sz <-? size_attr_to_c size;
    inr (masked_const_decl c sz num_indent
         +:+ spaces num_indent +:+ "if ((! " +:+ varnode_name +:+ "->isConstant()) || ("
         +:+ varnode_name +:+ "->getOffset() " +:+ op +:+ " masked_const)) return 0;"
         +:+ nl).

Definition _emit_check_constant_equal (varnode_name : string) (const_val : Obj)
    (num_indent : nat) : result string :=
  size <-? attr_size const_val;
  if size_eq_8 size then
    c <-? obj_to_c const_val;
    inr (spaces num_indent +:+ "if (! " +:+ varnode_name +:+ "->constantMatch("
         +:+ c +:+ ")) return 0;" +:+ nl)
  else
    c <-? obj_to_c const_val;
    sz <-? size_attr_to_c size;
    inr (masked_const_decl c sz num_indent
         +:+ spaces num_indent +:+ "if (! " +:+ varnode_name
         +:+ "->constantMatch(masked_const)) return 0;" +:+ nl).

Definition _emit_check_constant_not_equal v c n := _emit_check_constant v "==" c n.

Definition _emit_check_constant_greater v c n := _emit_check_constant v "<=" c n.

Definition _emit_check_constant_greater_equal v c n := _emit_check_constant v "<" c n.

Definition _emit_check_constant_less v c n := _emit_check_constant v ">=" c n.

Definition _emit_check_constant_less_equal v c n := _emit_check_constant v ">" c n.

(** The attribute [_name]: an instance attribute of [TOK_VAR] and
    [TOK_OPCODE], a class attribute of the binary operations. *)
Definition attr_name (t : Token) : result string :=
  match t with
  | TOK_VAR name | TOK_OPCODE name _ => inr name
  | TOK_BINARY_OPERATION k _ _ => inr (binop_name k)
  | _ => inl AttributeError
  end.

(** [_emit_check_opcode], open in its call of
    [_emit_check_opcode_children]. *)
Definition _emit_check_opcode_with (children : string → Token → nat → M string)
    (varnode opcode : Token) (num_indent : nat) : M string :=
  let indent_str := spaces num_indent in
  v <- lift (to_c varnode);;
  pcode_varname <- _get_free_name "temp_pcode";;
  name <- lift (attr_name opcode);;
  rest <- children pcode_varname opcode num_indent;;
  ret (indent_str +:+ "if (! " +:+ v +:+ "->isWritten()) return 0;" +:+ nl
       +:+ indent_str +:+ "PcodeOp* " +:+ pcode_varname +:+ " = " +:+ v
       +:+ "->getDef();" +:+ nl
       +:+ _emit_check_equality (pcode_varname +:+ "->code()") ("CPUI_" +:+ name) num_indent
       +:+ rest).

(** The body of the loop over [opcode._args] in
    [_emit_check_opcode_children], in its two parts.  First the operand
    the argument is held against: one of the two parameters of the helper
    ([lambda_args]) when the opcode is commutative, input [i] of
    [target] otherwise. *)
Definition select_target (target : string) (lambda_args : option (string * string))
    (i : nat) : M string :=
  match lambda_args with
  | Some (varnode_left_name, varnode_right_name) =>
      match i with
      | 0 => ret varnode_left_name
      | 1 => ret varnode_right_name
      | _ => raise IndexError
      end
  | None => ret (target +:+ "->getIn(" +:+ pretty i +:+ ")")
  end.

(** Then the code for the argument, by its class. *)
Definition check_against (children : string → Token → nat → M string)
    (is_commutative : bool) (target_arg : string) (indentation : nat)
    (arg : Token) : M string :=
  code <-
    match arg with
    | TOK_VAR var_name =>
        λ st,
          if decide (var_name ∈ _variables st) then
            ret (_emit_check_equality target_arg var_name indentation) st
          else
            (_ <- variables_add var_name;;
             _emit_create_varnode var_name target_arg indentation) st
    | TOK_BINARY_OPERATION _ _ _ =>
        lift (_emit_check_constant_equal target_arg (OTok arg) indentation)
    | TOK_OPCODE _ _ =>
        if is_commutative then
          _emit_check_opcode_with children (TOK_VAR target_arg) arg indentation
        else
          varnode_name <- _get_free_name "autovar";;
          decl <- _emit_create_varnode varnode_name target_arg indentation;;
          chk <- _emit_check_opcode_with children (TOK_VAR varnode_name) arg indentation;;
          ret (decl +:+ chk)
    | TOK_NUMBER _ _ _ _ =>
        lift (_emit_check_constant_equal target_arg (OTok arg) indentation)
    | _ => raise ValueError
    end;;
  ret (code +:+ nl).

Definition check_child (children : string → Token → nat → M string)
    (target : string) (lambda_args : option (string * string))
    (indentation : nat) (i : nat) (arg : Token) : M string :=
  target_arg <- select_target target lambda_args i;;
  check_against children (bool_decide (is_Some lambda_args)) target_arg indentation arg.

Fixpoint _emit_check_opcode_children (target : string) (opcode : Token)
    (indentation : nat) {struct opcode} : M string :=
  match opcode with
  | TOK_OPCODE name args =>
      let indent_str := spaces indentation in
      pretty_opcode <- lift (to_pretty opcode);;
      let out := nl +:+ indent_str +:+ "// Checks " +:+ pretty_opcode +:+ nl in
      if decide (name ∈ COMMUTATIVE_OP_NAMES) then
        check_lambda_name <-
          _get_free_name ("check_" +:+ rsplit1_last "_" (lower name));;
        varnode_left_name <- _get_free_name "autovar_left";;
        varnode_right_name <- _get_free_name "autovar_right";;
        let open :=
          indent_str +:+ "auto " +:+ check_lambda_name +:+ " = [&](Varnode* "
          +:+ varnode_left_name +:+ ", Varnode* " +:+ varnode_right_name
          +:+ ") -> int4 {" +:+ nl in
        body <- for_enumerate
                  (check_child _emit_check_opcode_children target
                     (Some (varnode_left_name, varnode_right_name)) (indentation + 2))
                  0 args;;
        name_a <- _get_free_name "autovar";;
        name_b <- _get_free_name "autovar";;
        decl_a <- _emit_create_varnode name_a (target +:+ "->getIn(0)") indentation;;
        decl_b <- _emit_create_varnode name_b (target +:+ "->getIn(1)") indentation;;
        ret (out +:+ open +:+ body
             +:+ indent_str +:+ "  return 1;" +:+ nl
             +:+ indent_str +:+ "};" +:+ nl +:+ nl
             +:+ decl_a +:+ decl_b
             +:+ indent_str +:+ "if ((! " +:+ check_lambda_name +:+ "(" +:+ name_a
             +:+ ", " +:+ name_b +:+ ")) && (! " +:+ check_lambda_name +:+ "("
             +:+ name_b +:+ ", " +:+ name_a +:+ ")))" +:+ nl
             +:+ indent_str +:+ "  return 0;" +:+ nl)
      else
        body <- for_enumerate
                  (check_child _emit_check_opcode_children target None indentation)
                  0 args;;
        ret (out +:+ body)
  | _ =>
      _ <- lift (to_pretty opcode);;
      raise AttributeError
  end.

Definition _emit_check_opcode : Token → Token → nat → M string :=
  _emit_check_opcode_with _emit_check_opcode_children.

(** ** tokens.py: [TOK_CONSTRAINT.to_check_c] and [to_check_c_end] *)

(** What [to_check_c] hands back: the pair its annotation promises, or a
    bare [str]. *)
Inductive CheckRet :=
| RetTuple (code : string) (indent_level : nat)
| RetStr (code : string).

Definition is_TOK_VAR (t : Token) : bool :=
  match t with TOK_VAR _ => true | _ => false end.

(** [self._right._elements[i] for i in range(1, len(...) - 1)] *)
Definition middle_elements (elements : list Token) : list Token :=
  take (length elements - 2) (drop 1 elements).

(** The [if] / [else if] / [else] chain of the helper closure. *)
Definition or_branches (left : Token) (elements : list Token) (option_name : string)
    (indent_level : nat) : M string :=
  let indent_str := spaces indent_level in
  first <-
    match elements with
    | [] => raise IndexError
    | e :: _ => _emit_check_opcode left e (indent_level + 4)
    end;;
  middle <-
    for_enumerate
      (λ i e,
         chk <- _emit_check_opcode left e (indent_level + 4);;
         ret (indent_str +:+ "  } else if (" +:+ option_name +:+ " == " +:+ pretty i
              +:+ ") {" +:+ nl +:+ chk))
      1 (middle_elements elements);;
  final <-
    match last elements with
    | None => raise IndexError
    | Some e => _emit_check_opcode left e (indent_level + 4)
    end;;
  ret (indent_str +:+ "  if (" +:+ option_name +:+ " == 0) {" +:+ nl
       +:+ first +:+ middle
       +:+ indent_str +:+ "  } else {" +:+ nl
       +:+ final
       +:+ indent_str +:+ "  }" +:+ nl +:+ nl).

(** The constraint comes back with [_or_func_name] as the call left it.
    Falling out of the [match] reaches a [raise] whose message reads the
    unbound name [check_val].  The warnings printed for equal sides are
    not part of the result. *)
Definition to_check_c (self : TOK_CONSTRAINT) (indent_level : nat)
    : M (CheckRet * TOK_CONSTRAINT) :=
  let left := _left self in
  let right := _right self in
  match right with
  | TOK_OPCODE_OR elements =>
      if decide (_comparison_op self = "=") then
        or_func_name <- _get_free_name "or_func";;
        let self' := {| _left := left; _comparison_op := _comparison_op self;
                        _right := right; _or_func_name := Some or_func_name |} in
        option_name <- _get_free_name "option_id";;
        let indent_str := spaces indent_level in
        if existsb is_TOK_VAR elements then raise AssertionError
        else
          branches <- or_branches left elements option_name indent_level;;
          ret (RetTuple
                 (nl +:+ indent_str +:+ "auto " +:+ or_func_name +:+ " = [&](int4 "
                  +:+ option_name +:+ ") -> int4 {" +:+ nl +:+ branches)
                 (indent_level + 2), self')
      else raise AssertionError
  | _ =>
      if decide (_comparison_op self = "=") then
        if tok_eq left right then ret (RetTuple "" indent_level, self)
        else
          match right with
          | TOK_OPCODE _ _ =>
              code <- _emit_check_opcode left right indent_level;;
              ret (RetTuple code indent_level, self)
          | TOK_VAR _ => raise AssertionError
          | _ =>
              l <- lift (to_c left);;
              r <- lift (to_c right);;
              code <- lift (_emit_check_constant_equal l (OStr r) indent_level);;
              ret (RetTuple code indent_level, self)
          end
      else if decide (_comparison_op self = "<") then
        if tok_eq left right then
          ret (RetTuple (spaces indent_level +:+ "return 0;") indent_level, self)
        else
          match right with
          | TOK_VAR var_name =>
              λ st,
                if decide (var_name ∈ _variables st) then
                  (l <- lift (to_c left);;
                   code <- lift (_emit_check_constant_less l
                                   (OStr (var_name +:+ "->getOffset()")) indent_level);;
                   ret (RetTuple (_emit_check_is_constant var_name indent_level +:+ code)
                          indent_level, self)) st
                else inl AssertionError
          | TOK_BINARY_OPERATION _ _ _ | TOK_NUMBER _ _ _ _ =>
              l <- lift (to_c left);;
              r <- lift (to_c right);;
              code <- lift (_emit_check_constant_less l (OStr r) indent_level);;
              ret (RetTuple code indent_level, self)
          | _ => raise NameError
          end
      else if decide (_comparison_op self = ">") then
        if tok_eq left right then
          ret (RetTuple (spaces indent_level +:+ "return 0;") indent_level, self)
        else
          match right with
          | TOK_VAR var_name =>
              λ st,
                if decide (var_name ∈ _variables st) then
                  (l <- lift (to_c left);;
                   code <- lift (_emit_check_constant_greater l
                                   (OStr (var_name +:+ "->getOffset()")) indent_level);;
                   ret (RetTuple (_emit_check_is_constant var_name indent_level +:+ code)
                          indent_level, self)) st
                else inl AssertionError
          | TOK_BINARY_OPERATION _ _ _ | TOK_NUMBER _ _ _ _ =>
              l <- lift (to_c left);;
              r <- lift (to_c right);;
              code <- lift (_emit_check_constant_greater l (OStr r) indent_level);;
              ret (RetStr code, self)
          | _ => raise NameError
          end
      else raise NameError
  end.

(** [f"{self._or_func_name}"] *)
Definition or_func_name_str (self : TOK_CONSTRAINT) : string :=
  match _or_func_name self with
  | Some name => name
  | None => "None"
  end.

Definition to_check_c_end (self : TOK_CONSTRAINT) (indent_level : nat) : M string :=
  match _right self with
  | TOK_OPCODE_OR elements =>
      let indent_str := spaces indent_level in
      it_var <- _get_free_name "i";;
      ret (indent_str +:+ "}" +:+ nl
           +:+ nl
           +:+ indent_str +:+ "int4 " +:+ it_var +:+ ";" +:+ nl
           +:+ indent_str +:+ "for (" +:+ it_var +:+ " = 0; " +:+ it_var +:+ " < "
             +:+ pretty (length elements) +:+ "; " +:+ it_var +:+ "++) {;" +:+ nl
           +:+ indent_str +:+ "  if (" +:+ or_func_name_str self +:+ "(" +:+ it_var
             +:+ ") != 0)" +:+ nl
           +:+ indent_str +:+ "    break;" +:+ nl
           +:+ indent_str +:+ "}" +:+ nl
           +:+ nl
           +:+ indent_str +:+ "if (" +:+ it_var +:+ " == "
             +:+ pretty (length elements) +:+ ")" +:+ nl
           +:+ indent_str +:+ "  return 0;" +:+ nl
           +:+ indent_str +:+ "}" +:+ nl)
  | _ => raise AssertionError
  end.

(** ** emit.py: [emit_apply_op] *)

(** [for var in replace_expr.get_variables(): out += ...]: the variables
    yielded are declared one by one, then the generator's exception, if
    any, propagates. *)
Definition declare_all (g : gen Token) : M string :=
  decls <- for_enumerate (λ _ var, _emit_declare_var var) 0 g.1;;
  match g.2 with
  | Some e => raise e
  | None => ret decls
  end.

(** The loop over [constraints]: the code, and [finish_constraints].
    Unpacking a bare [str] into [code, new_indent_level] raises unless
    the string has exactly two characters; [to_check_c] raises before
    it can return one (see [to_check_c_never_str]). *)
Fixpoint check_constraints (indent_level : nat) (constraints : list TOK_CONSTRAINT)
    : M (string * list (nat * TOK_CONSTRAINT)) :=
  match constraints with
  | [] => ret ("", [])
  | constr :: rest =>
      r <- to_check_c constr indent_level;;
      match r with
      | (RetTuple code new_indent_level, constr') =>
          if decide (new_indent_level ≠ indent_level) then
            more <- check_constraints new_indent_level rest;;
            ret (code +:+ more.1, (indent_level, constr') :: more.2)
          else
            more <- check_constraints indent_level rest;;
            ret (code +:+ more.1, more.2)
      | (RetStr _, _) => raise ValueError
      end
  end.

Definition get_name (t : Token) : result string :=
  match t with
  | TOK_OPCODE name _ => inr name
  | _ => inl AttributeError
  end.

Definition emit_apply_op (class_name : string) (match_expr : Token)
    (constraints : list TOK_CONSTRAINT) (replace_expr : Token) : M string :=
  let out :=
    "int4 RuleSimplify" +:+ class_name +:+ "::applyOp(PcodeOp *op, Funcdata &data)" +:+ nl
    +:+ nl
    +:+ "{" +:+ nl
    +:+ nl
    +:+ "  // Remaining checks on the match expression" +:+ nl in
  match match_expr with
  | TOK_OPCODE match_name match_args =>
      decls <- declare_all (get_variables replace_expr);;
      checks <- _emit_check_opcode_children "op" match_expr 2;;
      let intro :=
        match constraints with
        | [] => ""
        | _ => nl +:+ "  // Some more checks for the extra constraints" +:+ nl
        end in
      opened <- check_constraints 2 constraints;;
      closed <- for_enumerate (λ _ (p : nat * TOK_CONSTRAINT), to_check_c_end p.2 p.1)
                  0 (reverse opened.2);;
      let matched :=
        nl +:+ "  // matched this PcodeOp - replace this with the simplified structure"
        +:+ nl in
      match replace_expr with
      | TOK_OPCODE replace_name replace_args =>
          let set_opcode :=
            if decide (replace_name ≠ match_name)
            then "  data.opSetOpcode(op, CPUI_" +:+ replace_name +:+ ");" +:+ nl
            else "" in
          let num_match_args := length match_args in
          let num_replace_args := length replace_args in
          inserts <- for_enumerate
                       (λ _ i, ret ("  op->insertInput(" +:+ pretty i +:+ ");" +:+ nl))
                       0 (seq num_match_args (num_replace_args - num_match_args));;
          removes <- for_enumerate
                       (λ _ i, ret ("  data.opRemoveInput(op, " +:+ pretty i +:+ ");" +:+ nl))
                       0 (seq num_replace_args (num_match_args - num_replace_args));;
          inputs <- for_enumerate
                      (λ i replace_arg,
                         match replace_arg with
                         | TOK_OPCODE _ _ => _emit_create_opcode replace_arg "op" i
                         | TOK_VAR _ => _emit_create_var replace_arg "op" i
                         | _ => raise TypeError  (* evaluating [- "op"] *)
                         end)
                      0 replace_args;;
          ret (out +:+ decls +:+ checks +:+ intro +:+ opened.1 +:+ closed +:+ matched
               +:+ set_opcode +:+ inserts +:+ removes +:+ inputs
               +:+ nl +:+ "  return 1;" +:+ nl +:+ "}" +:+ nl)
      | _ => raise AssertionError
      end
  | _ => raise AssertionError
  end.

(** ** parser.py: the grammar of variables and numbers *)

(** [variable = pp.Word("abcdefghijklmnopqrstuvwxyz_")]: a non-empty run
    of these characters. *)
Definition variable_chars : string := "abcdefghijklmnopqrstuvwxyz_".

Fixpoint all_chars (p : ascii → bool) (s : string) : bool :=
  match s with
  | "" => true
  | String c r => p c && all_chars p r
  end.

Definition is_Word (chars : string) (s : string) : bool :=
  match s with
  | "" => false
  | _ => all_chars (λ c, contains_char c chars) s
  end.

(** [parse_variable] *)
Definition parse_variable (results0 : string) : Token :=
  TOK_VAR ("autovar_" +:+ results0).

(** [parse_number] *)
Definition parse_number (results : list (string + Token)) : result Token :=
  match results with
  | [inl num] => TOK_NUMBER_init num (inl "8")
  | [inl num; _; size] => TOK_NUMBER_init num size
  | _ => inl ValueError
  end.

(** ** Running the emitter, and reading its output *)

(** [Rule.emit_c_code] creates the emitter and calls [emit_apply_op]. *)
Definition run_emit_apply_op (class_name : string) (match_expr : Token)
    (constraints : list TOK_CONSTRAINT) (replace_expr : Token) : result string :=
  match emit_apply_op class_name match_expr constraints replace_expr Emitter_init with
  | inl e => inl e
  | inr (out, _) => inr out
  end.

(** The number of positions of [s] at which [pat] starts. *)
Fixpoint count_occurrences (pat s : string) : nat :=
  match s with
  | "" => 0
  | String _ r => (if startswith pat s then 1 else 0) + count_occurrences pat r
  end.

Definition occurs (pat s : string) : bool :=
  bool_decide (0 < count_occurrences pat s).

(** Tokens of the rules used below, as the parser builds them. *)
Definition var_x : Token := parse_variable "x".

Definition var_y : Token := parse_variable "y".

Definition num_1 : Token := TOK_NUMBER 1 (inl "8") "1" (Some 8%Z).

Definition num_4 : Token := TOK_NUMBER 4 (inl "8") "4" (Some 8%Z).

Definition num_ff_1 : Token := TOK_NUMBER 255 (inl "1") "0xff" (Some 1%Z).

Definition num_0_sizeof_x : Token := TOK_NUMBER 0 (inr (TOK_SIZEOF var_x)) "0" None.

Definition num_1_sizeof_x : Token := TOK_NUMBER 1 (inr (TOK_SIZEOF var_x)) "1" None.

(** * Part II: notions the properties are stated with

    ** Characters of a name *)

Definition is_digit (c : ascii) : bool :=
  match Ascii.is_nat c with
  | Some _ => true
  | None => false
  end.

Fixpoint has_digit (s : string) : bool :=
  match s with
  | "" => false
  | String c r => is_digit c || has_digit r
  end.

(** ** The sets of the emitter *)

Definition extends (st st' : Emitter) : Prop :=
  _variables st ⊆ _variables st' ∧ _declared_vars st ⊆ _declared_vars st'.

Definition grows {A} (m : M A) : Prop :=
  ∀ st a st', m st = inr (a, st') → extends st st'.

(** An emitter in which [prefix_0] ... [prefix_999] are all allocated. *)
Definition exhausted (prefix : string) : Emitter :=
  {| _variables := list_to_set (map (free_name prefix) (seq 0 1000));
     _declared_vars := ∅ |}.

(** ** The arguments of an opcode, held against operands *)

Fixpoint concat_strings (l : list string) : string :=
  match l with
  | [] => ""
  | x :: r => x +:+ concat_strings r
  end.

(** The arguments of an opcode held one by one against a list of
    operands, the emitter threaded through: argument [i] is compiled by
    [check_against] with operand [i], giving code [i]. *)
Inductive checked_against (children : string → Token → nat → M string)
    (is_commutative : bool) (indentation : nat)
    : list string → list Token → Emitter → list string → Emitter → Prop :=
| checked_nil st :
    checked_against children is_commutative indentation [] [] st [] st
| checked_cons operand operands arg args st code st1 codes st2 :
    check_against children is_commutative operand indentation arg st = inr (code, st1) →
    checked_against children is_commutative indentation operands args st1 codes st2 →
    checked_against children is_commutative indentation
      (operand :: operands) (arg :: args) st (code :: codes) st2.

(** [target->getIn(i)] *)
Definition input_of (target : string) (i : nat) : string :=
  target +:+ "->getIn(" +:+ pretty i +:+ ")".

(** ** Alternatives on the right of an [=] constraint *)









(** ** Variables of the match expression *)



(** The names [parse_variable] can give. *)
Definition is_parser_variable (name : string) : bool :=
  startswith "autovar_" name
  && is_Word variable_chars (slice_from (String.length "autovar_") name).

(** ** The rule for variables, by occurrence *)

(** The specification's rule for a variable (first occurrence binds,
    subsequent occurrences constrain equality), for a variable argument
    when [seen] holds the variables that occurred as an argument before
    it: a later occurrence is checked for equality with the operand, the
    first one is bound to the operand. *)
Definition spec_variable (seen : gset string) (var_name target_arg : string)
    (indentation : nat) : M string :=
  if decide (var_name ∈ seen) then
    ret (_emit_check_equality target_arg var_name indentation)
  else
    _ <- variables_add var_name;;
    _emit_create_varnode var_name target_arg indentation.





(** ** Agreement of the emitter with the rule by occurrence *)

(** Among the names without a digit, [_variables] holds exactly the
    variables seen. *)
Definition agree (seen : gset string) (st : Emitter) : Prop :=
  ∀ v, has_digit v = false → v ∈ _variables st ↔ v ∈ seen.


(** A computation that leaves the names without a digit alone. *)
Definition keeps {A} (m : M A) : Prop :=
  ∀ seen st a st', m st = inr (a, st') → agree seen st → agree seen st'.


(** ** Counting occurrences, bindings and checks *)






(** * Part I, continued: the rest of the program

    ** tokens.py: the remaining methods *)

(** [TOK_OPCODE.get_args] and [get_num_args] *)
Definition get_args (t : Token) : result (list Token) :=
  match t with
  | TOK_OPCODE _ args => inr args
  | _ => inl AttributeError
  end.

Definition get_num_args (t : Token) : result nat :=
  match t with
  | TOK_OPCODE _ args => inr (length args)
  | _ => inl AttributeError
  end.

(** [TOK_CONSTRAINT.to_pretty] and [get_variables] *)
Definition constraint_to_pretty (self : TOK_CONSTRAINT) : result string :=
  l <-? to_pretty (_left self);
  r <-? to_pretty (_right self);
  inr (l +:+ " " +:+ _comparison_op self +:+ " " +:+ r +:+ nl).

Definition constraint_get_variables (self : TOK_CONSTRAINT) : gen Token :=
  yield_from (get_variables (_left self)) (get_variables (_right self)).

(** ** parser.py: numbers and alternatives *)

(** The character classes of [number]. *)
Definition nonzero_digits : string := "123456789".
Definition decimal_digits : string := "0123456789".
Definition nonzero_hex_digits : string := "123456789abcdefABCDEF".
Definition hex_digits : string := "0123456789abcdefABCDEF".

(** [pp.Char(first) + pp.Char(rest)[...]] *)
Definition char_then_chars (first rest : string) (s : string) : bool :=
  match s with
  | "" => false
  | String c r => contains_char c first && all_chars (λ d, contains_char d rest) r
  end.

(** The strings [number] combines: one of its five alternatives. *)
Definition is_number (s : string) : bool :=
  bool_decide (s = "0")
  || char_then_chars nonzero_digits decimal_digits s
  || (startswith "-" s && char_then_chars nonzero_digits decimal_digits (slice_from 1 s))
  || bool_decide (s = "0x0")
  || (startswith "0x" s && char_then_chars nonzero_hex_digits hex_digits (slice_from 2 s)).

(** [parse_opcode_alt_expr], on the tokens of the alternatives. *)
Definition parse_opcode_alt_expr (results : list Token) : result Token :=
  if decide (1 < length results) then TOK_OPCODE_OR_init results
  else match results with
       | [] => inl IndexError
       | t :: _ => inr t
       end.

(** [parse_constraint] *)
Definition parse_constraint (left : Token) (comparison : string) (right : Token)
    : TOK_CONSTRAINT :=
  TOK_CONSTRAINT_init left comparison right.

(** ** rule.py *)

Record Rule := {
  _name : string;
  _match_expr : Token;
  _constraints : list TOK_CONSTRAINT;
  _replace_expr : Token;
}.

Definition quote : string := String (ascii_of_nat 34) "".
Definition tab : string := String (ascii_of_nat 9) "".

Definition _emit_header (self : Rule) : string :=
  "class RuleSimplify" +:+ _name self +:+ " : public Rule {" +:+ nl
  +:+ "public:" +:+ nl
  +:+ "  RuleSimplify" +:+ _name self +:+ "(const string &g) : Rule( g, 0, " +:+ quote
    +:+ "simplify" +:+ lower (_name self) +:+ quote +:+ ") {}" +:+ tab
    +:+ "///< Constructor" +:+ nl
  +:+ "  virtual Rule *clone(const ActionGroupList &grouplist) const {" +:+ nl
  +:+ "    if (!grouplist.contains(getGroup())) return (Rule *)0;" +:+ nl
  +:+ "    return new RuleSimplify" +:+ _name self +:+ "(getGroup());" +:+ nl
  +:+ "  }" +:+ nl
  +:+ "  virtual void getOpList(vector<uint4> &oplist) const;" +:+ nl
  +:+ "  virtual int4 applyOp(PcodeOp *op,Funcdata &data);" +:+ nl
  +:+ "};" +:+ nl.

Definition _emit_get_oplist (self : Rule) : result string :=
  name <-? get_name (_match_expr self);
  inr ("void RuleSimplify" +:+ _name self
       +:+ "::getOpList(vector<uint4> &oplist) const" +:+ nl
       +:+ "{" +:+ nl
       +:+ "  oplist.push_back(CPUI_" +:+ name +:+ ");" +:+ nl
       +:+ "}" +:+ nl).

Definition _get_pretty_rule (self : Rule) : result (list string) :=
  match_expr <-? to_pretty (_match_expr self);
  replace_expr <-? to_pretty (_replace_expr self);
  match _constraints self with
  | [] => inr [match_expr +:+ " => " +:+ replace_expr +:+ nl]
  | _ =>
      lines <-? mapM (λ constraint,
                  p <-? constraint_to_pretty constraint;
                  inr ("    " +:+ p)) (_constraints self);
      inr ([match_expr +:+ " :- {" +:+ nl] ++ lines
           ++ ["} => " +:+ replace_expr +:+ nl])%list
  end.

Definition _get_explanation_docstring (self : Rule) : result string :=
  pretty_rule <-? _get_pretty_rule self;
  inr (("/// \class RuleSimplify" +:+ _name self +:+ nl
        +:+ "///" +:+ nl
        +:+ "/// \brief This rule was automatically generated rule from the expression:"
        +:+ nl
        +:+ "///" +:+ nl
        +:+ "/// ")
       +:+ join "/// " pretty_rule +:+ "///").

Definition emit_c_code (self : Rule) : result string :=
  explanation_comment <-? _get_explanation_docstring self;
  let header := _emit_header self in
  get_oplist <-? _emit_get_oplist self;
  apply_op <-? run_emit_apply_op (_name self) (_match_expr self) (_constraints self)
                 (_replace_expr self);
  inr (join nl [header; ""; explanation_comment; get_oplist; ""; apply_op]).

(** * Part II, continued: notions the further properties are stated with *)

Fixpoint count_char (c : ascii) (s : string) : nat :=
  match s with
  | "" => 0
  | String d r => (if decide (c = d) then 1 else 0) + count_char c r
  end.

Definition opening (s : string) : nat := count_char "(" s.
Definition closing (s : string) : nat := count_char ")" s.

Definition is_TOK_OPCODE (t : Token) : bool :=
  match t with TOK_OPCODE _ _ => true | _ => false end.

Definition is_TOK_OPCODE_OR (t : Token) : bool :=
  match t with TOK_OPCODE_OR _ => true | _ => false end.

(** The tokens of a value expression: no opcode and no alternatives
    among the nodes [to_c] visits. *)
Fixpoint is_value (t : Token) : bool :=
  match t with
  | TOK_VAR _ => true
  | TOK_SIZEOF v => is_value v
  | TOK_NUMBER _ _ _ _ => true
  | TOK_BINARY_OPERATION _ l r => is_value l && is_value r
  | TOK_OPCODE _ _ | TOK_OPCODE_OR _ => false
  end.

(** The binary operations in a token, as [to_pretty] meets them. *)
Fixpoint binary_operations (t : Token) : nat :=
  match t with
  | TOK_BINARY_OPERATION _ l r => S (binary_operations l + binary_operations r)
  | TOK_OPCODE _ args => list_sum (map binary_operations args)
  | TOK_OPCODE_OR elements => list_sum (map binary_operations elements)
  | _ => 0
  end.

Definition no_parentheses (s : string) : bool :=
  bool_decide (opening s = 0) && bool_decide (closing s = 0).

(** Tokens as the parse actions build them: a [TOK_SIZEOF] holds a
    variable; a [TOK_NUMBER] has a literal size together with its value,
    or a [TOK_SIZEOF]; names and literals have no parenthesis (the
    grammar's words for them have letters, digits, [_] and [-] only). *)
Fixpoint parser_built (t : Token) : bool :=
  match t with
  | TOK_VAR name => no_parentheses name
  | TOK_SIZEOF v =>
      match v with
      | TOK_VAR name => no_parentheses name
      | _ => false
      end
  | TOK_NUMBER _ size val_repr size_val =>
      no_parentheses val_repr
      && match size, size_val with
         | inl s, Some _ => no_parentheses s
         | inr (TOK_SIZEOF (TOK_VAR name)), None => no_parentheses name
         | _, _ => false
         end
  | TOK_BINARY_OPERATION _ l r => parser_built l && parser_built r
  | TOK_OPCODE name args => no_parentheses name && forallb parser_built args
  | TOK_OPCODE_OR elements => forallb parser_built elements
  end.

(** The lines of the arity adjustment. *)
Definition insert_input_line (i : nat) : string :=
  "  op->insertInput(" +:+ pretty i +:+ ");" +:+ nl.

Definition remove_input_line (i : nat) : string :=
  "  data.opRemoveInput(op, " +:+ pretty i +:+ ");" +:+ nl.

(** Every run of the computation that returns relates the emitter before
    to the emitter after. *)
Definition respects {A} (R : Emitter → Emitter → Prop) (m : M A) : Prop :=
  ∀ st a st', m st = inr (a, st') → R st st'.

(** [_declared_vars] is as it was. *)
Definition same_declared (st st' : Emitter) : Prop :=
  _declared_vars st' = _declared_vars st.

(** The names of the tokens a generator yields, as [to_c] gives them. *)
Definition yielded_names (g : gen Token) : result (list string) := mapM to_c g.1.


(** The constraint after [self._or_func_name = name]. *)
Definition with_or_func_name (self : TOK_CONSTRAINT) (name : string) : TOK_CONSTRAINT :=
  {| _left := _left self; _comparison_op := _comparison_op self;
     _right := _right self; _or_func_name := Some name |}.

(** The three ways a call of [to_check_c] returns: both sides the same
    variable; an equality with an opcode; an equality with alternatives,
    none of them a variable. *)
Definition compiled_constraint (self : TOK_CONSTRAINT) (n : nat) (st : Emitter)
    (r : CheckRet) (self' : TOK_CONSTRAINT) (st' : Emitter) : Prop :=
  (tok_eq (_left self) (_right self) = true ∧ self' = self ∧ st' = st
   ∧ ((_comparison_op self = "=" ∧ r = RetTuple "" n)
      ∨ ((_comparison_op self = "<" ∨ _comparison_op self = ">")
         ∧ r = RetTuple (spaces n +:+ "return 0;") n)))
  ∨ (_comparison_op self = "=" ∧ is_TOK_OPCODE (_right self) = true ∧ self' = self
     ∧ ∃ code, _emit_check_opcode (_left self) (_right self) n st = inr (code, st')
               ∧ r = RetTuple code n)
  ∨ (_comparison_op self = "="
     ∧ ∃ elements name st1 option_name st2 branches,
         _right self = TOK_OPCODE_OR elements
         ∧ existsb is_TOK_VAR elements = false
         ∧ _get_free_name "or_func" st = inr (name, st1)
         ∧ _get_free_name "option_id" st1 = inr (option_name, st2)
         ∧ or_branches (_left self) elements option_name n st2 = inr (branches, st')
         ∧ self' = with_or_func_name self name
         ∧ r = RetTuple (nl +:+ spaces n +:+ "auto " +:+ name +:+ " = [&](int4 "
                         +:+ option_name +:+ ") -> int4 {" +:+ nl +:+ branches)
                        (n + 2)).

(** The constraint's right side is a [TOK_OPCODE_OR]. *)
Definition has_alternatives (c : TOK_CONSTRAINT) : bool := is_TOK_OPCODE_OR (_right c).

(** A constraint without the helper's name. *)
Definition sides (c : TOK_CONSTRAINT) : Token * string * Token :=
  (_left c, _comparison_op c, _right c).

(** The arguments of a match expression the emitter has a branch for
    and gets through: a variable; a binary operation of values; a number
    whose size is a value; an opcode of such arguments, with at most two
    of them when it is commutative. *)
Fixpoint matchable (t : Token) : bool :=
  match t with
  | TOK_VAR _ => true
  | TOK_BINARY_OPERATION _ _ _ => is_value t
  | TOK_NUMBER _ (inr size) _ _ => is_value size
  | TOK_NUMBER _ (inl _) _ _ => false
  | TOK_OPCODE name args =>
      forallb matchable args
      && (if decide (name ∈ COMMUTATIVE_OP_NAMES)
          then bool_decide (length args ≤ 2)%nat else true)
  | TOK_SIZEOF _ | TOK_OPCODE_OR _ => false
  end.



(** The loop over the arguments of the replacement's root. *)
Definition create_inputs (replace_args : list Token) : M string :=
  for_enumerate
    (λ i replace_arg,
       match replace_arg with
       | TOK_OPCODE _ _ => _emit_create_opcode replace_arg "op" i
       | TOK_VAR _ => _emit_create_var replace_arg "op" i
       | _ => raise TypeError
       end)
    0 replace_args.

(** The loop over [reversed(finish_constraints)]. *)
Definition close_helpers (finish_constraints : list (nat * TOK_CONSTRAINT)) : M string :=
  for_enumerate (λ _ (p : nat * TOK_CONSTRAINT), to_check_c_end p.2 p.1)
    0 (reverse finish_constraints).



(** A rule as [parse_description] hands it over: its match expression
    is an opcode, and its tokens are as the parse actions build them. *)
Definition parser_built_rule (self : Rule) : bool :=
  is_TOK_OPCODE (_match_expr self)
  && parser_built (_match_expr self)
  && parser_built (_replace_expr self)
  && forallb (λ c, parser_built (_left c) && parser_built (_right c)) (_constraints self).

(** Braces: those a text opens less those it closes. *)
Definition net_braces (s : string) : Z :=
  (Z.of_nat (count_char "{" s) - Z.of_nat (count_char "}" s))%Z.

Definition no_braces (s : string) : bool :=
  bool_decide (count_char "{" s = 0) && bool_decide (count_char "}" s = 0).

(** No name and no literal of the token holds a brace. *)
Fixpoint brace_free (t : Token) : bool :=
  match t with
  | TOK_VAR name => no_braces name
  | TOK_SIZEOF v => brace_free v
  | TOK_NUMBER _ size val_repr _ =>
      no_braces val_repr
      && match size with
         | inl s => no_braces s
         | inr sz => brace_free sz
         end
  | TOK_BINARY_OPERATION _ l r => brace_free l && brace_free r
  | TOK_OPCODE name args => no_braces name && forallb brace_free args
  | TOK_OPCODE_OR elements => forallb brace_free elements
  end.

Definition brace_free_constraint (c : TOK_CONSTRAINT) : bool :=
  brace_free (_left c) && brace_free (_right c).

(** The text [emit_apply_op] returns, from its parts. *)
Definition apply_op_text (class_name match_name : string) (match_args : list Token)
    (constraints : list TOK_CONSTRAINT) (replace_name : string)
    (replace_args : list Token) (decls checks opened closed inputs : string) : string :=
  ("int4 RuleSimplify" +:+ class_name +:+ "::applyOp(PcodeOp *op, Funcdata &data)" +:+ nl
   +:+ nl
   +:+ "{" +:+ nl
   +:+ nl
   +:+ "  // Remaining checks on the match expression" +:+ nl)
  +:+ decls +:+ checks
  +:+ match constraints with
      | [] => ""
      | _ => nl +:+ "  // Some more checks for the extra constraints" +:+ nl
      end
  +:+ opened +:+ closed
  +:+ (nl +:+ "  // matched this PcodeOp - replace this with the simplified structure"
       +:+ nl)
  +:+ (if decide (replace_name ≠ match_name)
       then "  data.opSetOpcode(op, CPUI_" +:+ replace_name +:+ ");" +:+ nl
       else "")
  +:+ concat_strings
        (insert_input_line
           <$> seq (length match_args) (length replace_args - length match_args))
  +:+ concat_strings
        (remove_input_line
           <$> seq (length replace_args) (length match_args - length replace_args))
  +:+ inputs
  +:+ nl +:+ "  return 1;" +:+ nl +:+ "}" +:+ nl.
(** * Part III: properties

    ** The builtins and the token model on examples *)

Example int0_hex : Py.int0 "0xff" = inr 255%Z.
Proof. reflexivity. Qed.

Example int0_neg : Py.int0 "-12" = inr (-12)%Z.
Proof. reflexivity. Qed.

Example int0_leading_zero : Py.int0 "012" = inl Py.ValueError.
Proof. reflexivity. Qed.

Example rsplit_int_add : Py.rsplit1_last "_" (Py.lower "INT_ADD") = "add".
Proof. reflexivity. Qed.

Example rsplit_copy : Py.rsplit1_last "_" (Py.lower "COPY") = "copy".
Proof. reflexivity. Qed.

Example str_tuple : Py.str (Py.Tuple [Py.Int 2]) = "(2,)".
Proof. reflexivity. Qed.

Example get_size_bool : get_size (TOK_OPCODE "INT_EQUAL" [TOK_VAR "a"; TOK_VAR "b"]) = inr (Int 1).
Proof. reflexivity. Qed.

Example to_pretty_opcode :
  to_pretty (TOK_OPCODE "INT_RIGHT" [TOK_VAR "autovar_x"; TOK_NUMBER 4 (inl "1") "4" (Some 1%Z)])
  = inr "INT_RIGHT(x, 4:1)".
Proof. reflexivity. Qed.

Example num_1_parsed : parse_number [inl "1"] = inr num_1.
Proof. reflexivity. Qed.

Example num_ff_1_parsed : parse_number [inl "0xff"; inl ":"; inl "1"] = inr num_ff_1.
Proof. reflexivity. Qed.

Example num_0_sizeof_x_parsed :
  parse_number [inl "0"; inl ":"; inr (TOK_SIZEOF var_x)] = inr num_0_sizeof_x.
Proof. reflexivity. Qed.

(** ** Size inference *)

Lemma get_size_same_size name a0 rest :
  name ∈ SAME_SIZE_OP_NAMES →
  get_size (TOK_OPCODE name (a0 :: rest)) = get_size a0.
Proof.
  intros Hin. cbn [get_size].
  destruct (decide (name = "PIECE")) as [->|_].
  - exfalso. revert Hin. vm_compute. intros Hin.
    repeat (apply elem_of_cons in Hin as [Hin|Hin]; [discriminate Hin|]).
    by apply elem_of_nil in Hin.
  - by rewrite decide_True.
Qed.

Lemma get_size_boolean name args :
  name ∈ BOOLEAN_OP_NAMES →
  get_size (TOK_OPCODE name args) = inr (Int 1).
Proof.
  intros Hin. cbn [get_size].
  assert (name ≠ "PIECE" ∧ name ∉ SAME_SIZE_OP_NAMES) as [H1 H2].
  { unfold BOOLEAN_OP_NAMES in Hin.
    repeat (apply elem_of_cons in Hin as [->|Hin];
            [split; [discriminate | by apply (bool_decide_unpack _)]|]).
    by apply elem_of_nil in Hin. }
  rewrite (decide_False _ _ H1), (decide_False _ _ H2).
  by rewrite decide_True.
Qed.

Lemma get_size_other name args :
  name ≠ "PIECE" → name ∉ SAME_SIZE_OP_NAMES → name ∉ BOOLEAN_OP_NAMES →
  get_size (TOK_OPCODE name args) = inr None_.
Proof.
  intros H1 H2 H3. cbn [get_size].
  by rewrite (decide_False _ _ H1), (decide_False _ _ H2), (decide_False _ _ H3).
Qed.

(** C9 (the code departs from the claim): for [PIECE], [get_size] never
    returns an integer.  When both inputs have a size it returns a
    one-element tuple holding their sum, as on
    [PIECE(|x|, |y|)], where it is [(16,)]; [_emit_create_opcode] then
    prints that tuple as the size of the new output varnode. *)
Theorem C9_piece_size_is_a_tuple :
  (∀ args z, get_size (TOK_OPCODE "PIECE" args) ≠ inr (Int z))
  ∧ (∀ a0 a1 rest s0 s1 s,
       get_size a0 = inr s0 → get_size a1 = inr s1 → add s0 s1 = inr s →
       get_size (TOK_OPCODE "PIECE" (a0 :: a1 :: rest)) = inr (Tuple [s]))
  ∧ get_size (TOK_OPCODE "PIECE" [TOK_SIZEOF var_x; TOK_SIZEOF var_y])
    = inr (Tuple [Int 16])
  ∧ (∃ out,
       run_emit_apply_op "Piece" (TOK_OPCODE "INT_SUB" [var_x; var_y]) []
         (TOK_OPCODE "INT_SUB"
            [var_x; TOK_OPCODE "PIECE" [TOK_OPCODE "INT_EQUAL" [var_x; var_y];
                                        TOK_OPCODE "INT_EQUAL" [var_y; var_x]]])
       = inr out
       ∧ occurs "data.newUniqueOut((2,), out_op_0);" out = true).
Proof.
  split; [|split; [|split]].
  - intros args z. cbn [get_size]. rewrite decide_True by done.
    destruct args as [|a0 [|a1 rest]]; [done| |].
    + by destruct (get_size a0).
    + destruct (get_size a0) as [|s0]; [done|]. cbn.
      destruct (get_size a1) as [|s1]; [done|]. cbn.
      by destruct (add s0 s1).
  - intros a0 a1 rest s0 s1 s H0 H1 Hs. cbn [get_size].
    rewrite decide_True by done. by rewrite H0; cbn; rewrite H1; cbn; rewrite Hs.
  - reflexivity.
  - eexists. split; [vm_compute; reflexivity|]. vm_compute. reflexivity.
Qed.

(** ** Constant checks *)

(** A [TOK_NUMBER] whose size is a [TOK_SIZEOF] gets the mask, with the
    size read at run time. *)
Lemma check_constant_equal_sizeof varnode v x r sv n :
  _emit_check_constant_equal varnode
    (OTok (TOK_NUMBER v (inr (TOK_SIZEOF (TOK_VAR x))) r sv)) n
  = inr (masked_const_decl r (x +:+ "->getSize()") n
         +:+ spaces n +:+ "if (! " +:+ varnode
         +:+ "->constantMatch(masked_const)) return 0;" +:+ nl).
Proof. reflexivity. Qed.

(** A binary operation, whose [_size] is the integer [8], gets none. *)
Lemma check_constant_equal_binop varnode k l r c n :
  to_c (TOK_BINARY_OPERATION k l r) = inr c →
  _emit_check_constant_equal varnode (OTok (TOK_BINARY_OPERATION k l r)) n
  = inr (spaces n +:+ "if (! " +:+ varnode +:+ "->constantMatch(" +:+ c
         +:+ ")) return 0;" +:+ nl).
Proof. intros Hc. unfold _emit_check_constant_equal. cbn - [to_c]. by rewrite Hc. Qed.

(** C1 (the code departs from the claim): a [TOK_NUMBER] with a literal
    size stores that size as a [str].  The test [_size == 8] is then
    false for every literal, ["8"] included, and the masking branch calls
    [to_c] on the [str]: no comparison is emitted, the emitter raises
    [AttributeError].  So on [INT_AND(x, 0xff:1)] no mask to one byte is
    emitted, and on [INT_ADD(x, 0)] (size 8) the unmasked comparison is
    not emitted either. *)
Theorem C1_literal_size_raises :
  (∀ varnode v s r sv n,
     _emit_check_constant_equal varnode (OTok (TOK_NUMBER v (inl s) r sv)) n
     = inl AttributeError)
  ∧ (∀ varnode op v s r sv n,
       _emit_check_constant varnode op (OTok (TOK_NUMBER v (inl s) r sv)) n
       = inl AttributeError)
  ∧ run_emit_apply_op "Foo" (TOK_OPCODE "INT_AND" [var_x; num_ff_1]) []
      (TOK_OPCODE "COPY" [var_x]) = inl AttributeError
  ∧ run_emit_apply_op "AddZero"
      (TOK_OPCODE "INT_ADD" [var_x; TOK_NUMBER 0 (inl "8") "0" (Some 8%Z)]) []
      (TOK_OPCODE "COPY" [var_x]) = inl AttributeError.
Proof.
  split; [|split; [|split]].
  - reflexivity.
  - reflexivity.
  - vm_compute. reflexivity.
  - vm_compute. reflexivity.
Qed.

(** ** The rewrite side *)

(** C5 (the code departs from the claim): [_emit_create_const] ignores
    its parent: the constant is always wired to [op], the matched root.
    In [INT_ADD(x, INT_SUB(y, 1))] the constant [1] is input 1 of the new
    op [out_op_0], and the emitted code sets input 1 of [op].  A constant
    directly under the replacement's root raises [TypeError] (the call
    negates the string ["op"]), and a binary operation below a nested
    opcode raises [AttributeError] (it has no [size_to_c]). *)
Theorem C5_constant_wired_to_root :
  (∀ constant parent parent' i st,
     _emit_create_const constant parent i st = _emit_create_const constant parent' i st)
  ∧ (∃ out,
       run_emit_apply_op "Nested" (TOK_OPCODE "INT_SUB" [var_x; var_y]) []
         (TOK_OPCODE "INT_ADD" [var_x; TOK_OPCODE "INT_SUB" [var_y; num_1]])
       = inr out
       ∧ occurs "data.opSetInput(op, out_const_0, 1);" out = true
       ∧ occurs "data.opSetInput(out_op_0, out_const_0, 1);" out = false)
  ∧ run_emit_apply_op "Top" (TOK_OPCODE "INT_SUB" [var_x; var_y]) []
      (TOK_OPCODE "INT_ADD" [var_x; num_1]) = inl TypeError
  ∧ run_emit_apply_op "TopBinOp" (TOK_OPCODE "INT_SUB" [var_x; var_y]) []
      (TOK_OPCODE "INT_ADD" [var_x; TOK_BINARY_OPERATION TOK_BINOP_ADD var_y num_1])
    = inl TypeError
  ∧ run_emit_apply_op "NestedBinOp" (TOK_OPCODE "INT_SUB" [var_x; var_y]) []
      (TOK_OPCODE "INT_ADD"
         [var_x; TOK_OPCODE "INT_SUB"
                   [var_y; TOK_BINARY_OPERATION TOK_BINOP_ADD var_y num_1]])
    = inl AttributeError.
Proof.
  split; [|split; [|split; [|split]]].
  - reflexivity.
  - eexists. split; [vm_compute; reflexivity|]. split; vm_compute; reflexivity.
  - vm_compute. reflexivity.
  - vm_compute. reflexivity.
  - vm_compute. reflexivity.
Qed.

(** ** Constraints *)

Lemma check_constant_str varnode op s n :
  _emit_check_constant varnode op (OStr s) n = inl AttributeError.
Proof. reflexivity. Qed.

Lemma check_constant_equal_str varnode s n :
  _emit_check_constant_equal varnode (OStr s) n = inl AttributeError.
Proof. reflexivity. Qed.

(** [to_check_c] never gets as far as returning a bare string. *)
Lemma to_check_c_never_str self n st code self' st' :
  to_check_c self n st ≠ inr (RetStr code, self', st').
Proof.
  unfold to_check_c.
  destruct (_right self) eqn:Hr;
    repeat (case_decide; try done);
    repeat (case_match; try done);
    unfold bind, lift, ret, raise;
    repeat (case_match; try done).
Qed.

(** C8 (the code departs from the claim): for [>] against a number or a
    binary operation, [to_check_c] returns no pair.  It raises: it hands
    [_emit_check_constant] the [str] that [to_c] returned, and reading
    [_size] of a [str] is an [AttributeError]; the [return] behind that
    call would give the bare string, without the indent level. *)
Theorem C8_greater_than_constant_gives_no_pair :
  (∀ left v sz r sv name n st,
     ∃ e, to_check_c {| _left := left; _comparison_op := ">";
                        _right := TOK_NUMBER v sz r sv; _or_func_name := name |} n st
          = inl e)
  ∧ (∀ left k a b name n st,
       ∃ e, to_check_c {| _left := left; _comparison_op := ">";
                          _right := TOK_BINARY_OPERATION k a b; _or_func_name := name |} n st
            = inl e)
  ∧ (∀ n st, to_check_c (TOK_CONSTRAINT_init var_x ">" num_4) n st = inl AttributeError)
  ∧ run_emit_apply_op "Gt" (TOK_OPCODE "INT_LEFT" [var_x; var_y])
      [TOK_CONSTRAINT_init var_y ">" num_4] (TOK_OPCODE "INT_LEFT" [var_x; var_y])
    = inl AttributeError.
Proof.
  split; [|split; [|split]].
  - intros. unfold to_check_c. cbn - [to_c].
    assert (tok_eq left (TOK_NUMBER v sz r sv) = false) as -> by by destruct left.
    unfold bind, lift. destruct (to_c left); cbn; eauto.
  - intros. unfold to_check_c. cbn - [to_c].
    assert (tok_eq left (TOK_BINARY_OPERATION k a b) = false) as -> by by destruct left.
    unfold bind, lift. destruct (to_c left); [by eauto|].
    destruct (to_c (TOK_BINARY_OPERATION k a b)); cbn; eauto.
  - reflexivity.
  - vm_compute. reflexivity.
Qed.

(** ** Declarations in the emitted function *)

(** C6 (the code departs from the claim): the rule
    [INT_SUB(INT_LEFT(x, 1:|x|), 0:|x|) => INT_ADD(x, x)] is accepted, and
    the emitted [applyOp] declares [autovar_x] twice (once per occurrence
    in the replacement) and [masked_const] twice in the same scope (once
    per masked constant). *)
Theorem C6_locals_declared_twice :
  ∃ out,
    run_emit_apply_op "Dbl"
      (TOK_OPCODE "INT_SUB" [TOK_OPCODE "INT_LEFT" [var_x; num_1_sizeof_x]; num_0_sizeof_x])
      [] (TOK_OPCODE "INT_ADD" [var_x; var_x])
    = inr out
    ∧ count_occurrences "  Varnode* autovar_x;" out = 2
    ∧ count_occurrences "  uintb masked_const = " out = 2.
Proof.
  eexists. split; [vm_compute; reflexivity|]. split; vm_compute; reflexivity.
Qed.

(** ** Names: their characters *)

Lemma string_app_cons (c : ascii) (r s : string) : String c r +:+ s = String c (r +:+ s).
Proof. reflexivity. Qed.

Lemma string_app_assoc (a b c : string) : (a +:+ b) +:+ c = a +:+ (b +:+ c).
Proof. induction a as [|x a IH]; [done|]. by rewrite !string_app_cons, IH. Qed.

Lemma has_digit_app a b : has_digit (a +:+ b) = has_digit a || has_digit b.
Proof.
  induction a as [|c a IH]; [done|].
  rewrite string_app_cons. cbn. by rewrite IH, orb_assoc.
Qed.

Lemma all_chars_has_digit s : s ≠ "" → all_chars is_digit s = true → has_digit s = true.
Proof. destruct s as [|c r]; [done|]. cbn. intros _ [-> _]%andb_prop. done. Qed.

Lemma pretty_N_char_digit x : is_digit (pretty_N_char x) = true.
Proof. unfold pretty_N_char. by repeat case_match. Qed.

Lemma pretty_N_go_digits x s :
  all_chars is_digit s = true →
  all_chars is_digit (pretty_N_go x s) = true ∧ (s ≠ "" → pretty_N_go x s ≠ "").
Proof.
  revert s. induction (N.lt_wf_0 x) as [x _ IH]. intros s Hs.
  destruct (decide (x = 0%N)) as [->|Hx].
  - by rewrite pretty_N_go_0.
  - rewrite pretty_N_go_step by lia.
    destruct (IH (x `div` 10)%N) with (s := String (pretty_N_char (x `mod` 10)) s)
      as [H1 H2].
    + apply N.div_lt; lia.
    + cbn. by rewrite pretty_N_char_digit, Hs.
    + split; [done|]. intros _. by apply H2.
Qed.

(** [f"{i}"] is a non-empty run of decimal digits. *)
Lemma pretty_nat_digits (n : nat) :
  pretty n ≠ "" ∧ all_chars is_digit (pretty n) = true.
Proof.
  unfold pretty, pretty_nat, pretty, pretty_N.
  case_decide; [done|].
  assert (N.of_nat n ≠ 0%N) as Hn by done.
  rewrite pretty_N_go_step by lia.
  destruct (pretty_N_go_digits (N.of_nat n `div` 10)
              (String (pretty_N_char (N.of_nat n `mod` 10)) "")) as [H1 H2].
  { cbn. by rewrite pretty_N_char_digit. }
  split; [by apply H2|done].
Qed.

Lemma free_name_has_digit prefix i : has_digit (free_name prefix i) = true.
Proof.
  unfold free_name. rewrite !has_digit_app.
  destruct (pretty_nat_digits i) as [H1 H2].
  rewrite (all_chars_has_digit _ H1 H2). by rewrite !orb_true_r.
Qed.

Lemma variable_char_no_digit c :
  contains_char c variable_chars = true → is_digit c = false.
Proof.
  unfold variable_chars. cbn.
  repeat (case_decide; [by subst|]). done.
Qed.

Lemma all_chars_no_digit s :
  all_chars (λ c, contains_char c variable_chars) s = true → has_digit s = false.
Proof.
  induction s as [|c r IH]; [done|]. cbn.
  intros [Hc Hr]%andb_prop.
  by rewrite (variable_char_no_digit _ Hc), IH.
Qed.

(** A name the parser gives a variable has no digit. *)
Lemma parse_variable_no_digit w name :
  is_Word variable_chars w = true → parse_variable w = TOK_VAR name →
  has_digit name = false.
Proof.
  intros Hw [= <-]. rewrite has_digit_app.
  destruct w as [|c r]; [done|]. cbn in Hw.
  apply andb_prop in Hw as [Hc Hr]. cbn.
  by rewrite (variable_char_no_digit _ Hc), (all_chars_no_digit _ Hr).
Qed.

(** ** Names: the fresh-name generator *)

Lemma first_free_spec prefix vars i n :
  match first_free prefix vars i n with
  | Some name =>
      ∃ k, i ≤ k < i + n ∧ name = free_name prefix k ∧ (name ∉ vars)
           ∧ (∀ m, i ≤ m < k → free_name prefix m ∈ vars)
  | None => ∀ m, i ≤ m < i + n → free_name prefix m ∈ vars
  end.
Proof.
  revert i. induction n as [|n IH]; intros i; cbn.
  - intros m ?. lia.
  - case_decide as Hin.
    + specialize (IH (S i)). destruct (first_free prefix vars (S i) n).
      * destruct IH as (k & Hk & -> & Hfresh & Hbelow).
        exists k. split_and!; [lia|lia|done|done|].
        intros m Hm. destruct (decide (m = i)) as [->|]; [done|]. apply Hbelow. lia.
      * intros m Hm. destruct (decide (m = i)) as [->|]; [done|]. apply IH. lia.
    + exists i. split_and!; [lia|lia|done|done|]. intros m ?. lia.
Qed.

Lemma get_free_name_inv prefix st name st' :
  _get_free_name prefix st = inr (name, st') →
  ∃ n, n < 1000 ∧ name = free_name prefix n ∧ (name ∉ _variables st)
       ∧ (∀ m, m < n → free_name prefix m ∈ _variables st)
       ∧ st' = {| _variables := {[name]} ∪ _variables st;
                  _declared_vars := _declared_vars st |}.
Proof.
  unfold _get_free_name.
  pose proof (first_free_spec prefix (_variables st) 0 1000) as H.
  destruct (first_free prefix (_variables st) 0 1000) as [nm|]; [|done].
  intros [= <- <-]. destruct H as (k & Hk & -> & Hfresh & Hbelow).
  exists k. split_and!; [lia|done|done| |done].
  intros m ?. apply Hbelow. lia.
Qed.

(** ** Induction on tokens *)

Section Token_induction.

Variable P : Token → Prop.

Hypothesis Hvar : ∀ name, P (TOK_VAR name).

Hypothesis Hsizeof : ∀ v, P v → P (TOK_SIZEOF v).

Hypothesis Hnumber : ∀ v size r sv,
  (∀ t, size = inr t → P t) → P (TOK_NUMBER v size r sv).

Hypothesis Hbinop : ∀ k l r, P l → P r → P (TOK_BINARY_OPERATION k l r).

Hypothesis Hopcode : ∀ name args, Forall P args → P (TOK_OPCODE name args).

Hypothesis Hor : ∀ elements, Forall P elements → P (TOK_OPCODE_OR elements).

Fixpoint Token_nested_ind (t : Token) : P t :=
  let fix all (l : list Token) : Forall P l :=
    match l with
    | [] => Forall_nil_2 P
    | x :: r => Forall_cons_2 P x r (Token_nested_ind x) (all r)
    end in
  match t with
  | TOK_VAR name => Hvar name
  | TOK_SIZEOF v => Hsizeof v (Token_nested_ind v)
  | TOK_NUMBER v size r sv =>
      Hnumber v size r sv
        (match size as s return ∀ t, s = inr t → P t with
         | inl _ => λ t H, match H in _ = y return
                             match y with inl _ => True | inr _ => P t end
                           with eq_refl => I end
         | inr t0 => λ t H, match H in _ = y return
                              match y with inl _ => True | inr u => P u end
                            with eq_refl => Token_nested_ind t0 end
         end)
  | TOK_BINARY_OPERATION k l r =>
      Hbinop k l r (Token_nested_ind l) (Token_nested_ind r)
  | TOK_OPCODE name args => Hopcode name args (all args)
  | TOK_OPCODE_OR elements => Hor elements (all elements)
  end.

End Token_induction.

(** ** The sets of the emitter only grow *)

Lemma extends_refl st : extends st st.
Proof. by split. Qed.

Lemma extends_trans st1 st2 st3 : extends st1 st2 → extends st2 st3 → extends st1 st3.
Proof. intros [??] [??]. split; set_solver. Qed.

Lemma bind_inv {A B} (m : M A) (k : A → M B) st b st' :
  bind m k st = inr (b, st') →
  ∃ a st1, m st = inr (a, st1) ∧ k a st1 = inr (b, st').
Proof. unfold bind. destruct (m st) as [|[a st1]]; [done|]. eauto. Qed.

Lemma lift_inv {A} (r : result A) st a st' :
  lift r st = inr (a, st') → r = inr a ∧ st' = st.
Proof. unfold lift. destruct r; [done|]. by intros [= -> ->]. Qed.

Lemma ret_inv {A} (x : A) st a st' : ret x st = inr (a, st') → a = x ∧ st' = st.
Proof. by intros [= -> ->]. Qed.

Lemma grows_ret {A} (a : A) : grows (ret a).
Proof. intros st b st' [_ ->]%ret_inv. apply extends_refl. Qed.

Lemma grows_raise {A} e : grows (@raise A e).
Proof. by intros st b st'. Qed.

Lemma grows_lift {A} (r : result A) : grows (lift r).
Proof. intros st b st' [_ ->]%lift_inv. apply extends_refl. Qed.

Lemma grows_bind {A B} (m : M A) (k : A → M B) :
  grows m → (∀ a, grows (k a)) → grows (bind m k).
Proof.
  intros Hm Hk st b st' (a & st1 & H1 & H2)%bind_inv.
  eapply extends_trans; [by eapply Hm|by eapply Hk].
Qed.

Lemma grows_for_enumerate {A} (body : nat → A → M string) i l :
  (∀ j x, x ∈ l → grows (body j x)) → grows (for_enumerate body i l).
Proof.
  revert i. induction l as [|x l IH]; intros i Hbody; cbn.
  - apply grows_ret.
  - apply grows_bind; [apply Hbody; by left|]. intros s.
    apply grows_bind; [|intros t; apply grows_ret].
    apply IH. intros j y Hy. apply Hbody. by right.
Qed.

Lemma grows_get_free_name prefix : grows (_get_free_name prefix).
Proof.
  intros st name st' (n & _ & _ & _ & _ & ->)%get_free_name_inv.
  split; cbn; set_solver.
Qed.

Lemma grows_emit_create_varnode name source n : grows (_emit_create_varnode name source n).
Proof. intros st a st' [= _ <-]. apply extends_refl. Qed.

Lemma grows_emit_declare_var v : grows (_emit_declare_var v).
Proof.
  apply grows_bind; [apply grows_lift|]. intros s st a st' [= _ <-].
  split; cbn; set_solver.
Qed.

Create HintDb grows discriminated.

#[local] Hint Resolve grows_ret grows_raise grows_lift grows_get_free_name
  grows_emit_create_varnode grows_emit_declare_var : grows.

Ltac grows_step :=
  first
    [ solve [ eauto with grows ]
    | apply grows_bind; [|intros ?]
    | progress case_match
    | progress case_decide ].

Lemma grows_emit_create_var v parent i : grows (_emit_create_var v parent i).
Proof. unfold _emit_create_var. repeat grows_step. Qed.

Lemma grows_emit_create_const c parent i : grows (_emit_create_const c parent i).
Proof. unfold _emit_create_const. repeat grows_step. Qed.

#[local] Hint Resolve grows_emit_create_var grows_emit_create_const : grows.

Lemma grows_emit_create_opcode opcode :
  ∀ parent i, grows (_emit_create_opcode opcode parent i).
Proof.
  induction opcode as [| | | |name args IH|] using Token_nested_ind;
    intros parent i; cbn [_emit_create_opcode]; try by repeat grows_step.
  do 4 grows_step.
  - apply grows_for_enumerate. intros j x Hx.
    rewrite Forall_forall in IH. specialize (IH x Hx).
    destruct x; eauto with grows.
  - eauto with grows.
Qed.

Lemma grows_emit_check_opcode_with children varnode opcode n :
  (∀ target, grows (children target opcode n)) →
  grows (_emit_check_opcode_with children varnode opcode n).
Proof. intros H. unfold _emit_check_opcode_with. repeat grows_step. Qed.

Lemma grows_variables_add name : grows (variables_add name).
Proof. intros st a st' [= _ <-]. split; cbn; set_solver. Qed.

#[local] Hint Resolve grows_variables_add : grows.

Lemma grows_bind_var var_name target_arg n :
  grows (λ st,
    if decide (var_name ∈ _variables st) then
      ret (_emit_check_equality target_arg var_name n) st
    else
      (_ <- variables_add var_name;;
       _emit_create_varnode var_name target_arg n) st).
Proof.
  intros st a st'. case_decide.
  - apply grows_ret.
  - assert (grows (_ <- variables_add var_name;;
                   _emit_create_varnode var_name target_arg n)) as Hg
      by repeat grows_step.
    apply Hg.
Qed.

Lemma grows_check_child children target lambda_args n i arg :
  (∀ t m, grows (children t arg m)) →
  grows (check_child children target lambda_args n i arg).
Proof.
  intros H. unfold check_child, select_target, check_against.
  grows_step.
  { repeat grows_step. }
  grows_step; [|eauto with grows].
  destruct arg; try by eauto with grows.
  - apply grows_bind_var.
  - destruct (bool_decide _).
    + by apply grows_emit_check_opcode_with.
    + repeat grows_step; by apply grows_emit_check_opcode_with.
Qed.

Lemma grows_emit_check_opcode_children opcode :
  ∀ target n, grows (_emit_check_opcode_children target opcode n).
Proof.
  induction opcode as [| | | |name args IH|] using Token_nested_ind;
    intros target n; cbn [_emit_check_opcode_children]; try by repeat grows_step.
  rewrite Forall_forall in IH.
  grows_step; [eauto with grows|].
  case_decide.
  - do 4 grows_step.
    + apply grows_for_enumerate. intros j x Hx. apply grows_check_child. auto.
    + repeat grows_step.
  - grows_step; [|eauto with grows].
    apply grows_for_enumerate. intros j x Hx. apply grows_check_child. auto.
Qed.

Lemma grows_emit_check_opcode varnode opcode n :
  grows (_emit_check_opcode varnode opcode n).
Proof.
  apply grows_emit_check_opcode_with. intros. apply grows_emit_check_opcode_children.
Qed.

#[local] Hint Resolve grows_emit_create_opcode grows_emit_check_opcode_children
  grows_emit_check_opcode : grows.

Lemma grows_or_branches left elements option_name n :
  grows (or_branches left elements option_name n).
Proof.
  unfold or_branches. grows_step; [repeat grows_step|].
  grows_step; [|repeat grows_step].
  apply grows_for_enumerate. intros. repeat grows_step.
Qed.

#[local] Hint Resolve grows_or_branches : grows.

Lemma grows_if_bound {A} var_name (m : M A) e :
  grows m →
  grows (λ st, if decide (var_name ∈ _variables st) then m st else inl e).
Proof. intros Hm st a st'. case_decide; [apply Hm|done]. Qed.

Lemma grows_to_check_c self n : grows (to_check_c self n).
Proof.
  unfold to_check_c.
  destruct (_right self) eqn:Hr; repeat case_decide; try (by repeat grows_step);
    destruct (tok_eq _ _); try (by repeat grows_step);
    apply grows_if_bound; repeat grows_step.
Qed.

Lemma grows_to_check_c_end self n : grows (to_check_c_end self n).
Proof. unfold to_check_c_end. repeat grows_step. Qed.

#[local] Hint Resolve grows_to_check_c grows_to_check_c_end : grows.

Lemma grows_check_constraints constraints :
  ∀ n, grows (check_constraints n constraints).
Proof.
  induction constraints as [|c rest IH]; intros n; cbn [check_constraints].
  - eauto with grows.
  - grows_step; [eauto with grows|].
    destruct a as [[code lvl|code] c']; [|eauto with grows].
    case_decide; (grows_step; [apply IH|eauto with grows]).
Qed.

Lemma grows_declare_all g : grows (declare_all g).
Proof.
  unfold declare_all. grows_step; [|repeat grows_step].
  apply grows_for_enumerate. eauto with grows.
Qed.

#[local] Hint Resolve grows_check_constraints grows_declare_all : grows.

Lemma grows_emit_apply_op class_name match_expr constraints replace_expr :
  grows (emit_apply_op class_name match_expr constraints replace_expr).
Proof.
  unfold emit_apply_op.
  destruct match_expr; try by eauto with grows.
  do 4 grows_step.
  { apply grows_for_enumerate. eauto with grows. }
  destruct replace_expr; try by eauto with grows.
  grows_step; [apply grows_for_enumerate; eauto with grows|].
  grows_step; [apply grows_for_enumerate; eauto with grows|].
  grows_step; [|eauto with grows].
  apply grows_for_enumerate. intros j x _. destruct x; eauto with grows.
Qed.

Lemma get_free_name_exhausted prefix :
  _get_free_name prefix (exhausted prefix) = inl ValueError.
Proof.
  unfold _get_free_name.
  pose proof (first_free_spec prefix (_variables (exhausted prefix)) 0 1000) as H.
  destruct (first_free _ _ _ _) as [name|]; [|done].
  destruct H as (k & Hk & -> & Hfresh & _). exfalso. apply Hfresh.
  unfold exhausted; cbn [_variables]. rewrite elem_of_list_to_set.
  apply list_elem_of_fmap. exists k. split; [done|].
  apply elem_of_seq. lia.
Qed.

(** C7: [_get_free_name prefix] returns [prefix_n] for the least [n]
    whose name is not in [_variables], and records it there; it raises
    exactly when [prefix_0] ... [prefix_999] are all taken.  No method of
    the emitter removes a name from [_variables], so within a rule a
    name, once returned, is never returned again. *)
Theorem C7_fresh_name_generator :
  (∀ prefix st,
     (∃ n, n < 1000
           ∧ (free_name prefix n ∉ _variables st)
           ∧ (∀ m, m < n → free_name prefix m ∈ _variables st)
           ∧ _get_free_name prefix st
             = inr (free_name prefix n,
                    {| _variables := {[free_name prefix n]} ∪ _variables st;
                       _declared_vars := _declared_vars st |}))
     ∨ ((∀ m, m < 1000 → free_name prefix m ∈ _variables st)
        ∧ _get_free_name prefix st = inl ValueError))
  ∧ (∀ prefix, _get_free_name prefix (exhausted prefix) = inl ValueError)
  ∧ (∀ class_name match_expr constraints replace_expr,
       grows (emit_apply_op class_name match_expr constraints replace_expr))
  ∧ (∀ target opcode n, grows (_emit_check_opcode_children target opcode n))
  ∧ (∀ self n, grows (to_check_c self n))
  ∧ (∀ self n, grows (to_check_c_end self n))
  ∧ (∀ opcode parent i, grows (_emit_create_opcode opcode parent i))
  ∧ (∀ prefix st name st1 prefix' st2 name' st3,
       _get_free_name prefix st = inr (name, st1) →
       extends st1 st2 →
       _get_free_name prefix' st2 = inr (name', st3) →
       name' ≠ name).
Proof.
  split_and!; eauto using get_free_name_exhausted, grows_emit_apply_op with grows.
  - intros prefix st. unfold _get_free_name.
    pose proof (first_free_spec prefix (_variables st) 0 1000) as H.
    destruct (first_free _ _ _ _) as [name|].
    + left. destruct H as (k & Hk & -> & Hfresh & Hbelow).
      exists k. split_and!; [lia|done| |done].
      intros m ?. apply Hbelow. lia.
    + right. split; [|done]. intros m ?. apply H. lia.
  - intros prefix st name st1 prefix' st2 name' st3 H1 [Hext _] H2 ->.
    apply get_free_name_inv in H1 as (n & _ & _ & _ & _ & ->).
    apply get_free_name_inv in H2 as (n' & _ & _ & Hfresh & _).
    apply Hfresh, Hext. cbn. set_solver.
Qed.

(** C10: a name from the generator is [prefix_n] with [n] printed as a
    non-empty run of decimal digits, so it contains a digit; a variable
    of the parser is [autovar_] followed by a word over the lowercase
    letters and the underscore, so it contains none.  The two never
    coincide. *)
Theorem C10_fresh_names_miss_parser_variables prefix st name st' w :
  _get_free_name prefix st = inr (name, st') →
  is_Word variable_chars w = true →
  (∃ n : nat, name = prefix +:+ "_" +:+ pretty n
        ∧ pretty n ≠ "" ∧ all_chars is_digit (pretty n) = true)
  ∧ (parse_variable w = TOK_VAR ("autovar_" +:+ w)
     ∧ has_digit ("autovar_" +:+ w) = false)
  ∧ TOK_VAR name ≠ parse_variable w.
Proof.
  intros (n & _ & -> & _)%get_free_name_inv Hw.
  pose proof (parse_variable_no_digit w _ Hw eq_refl) as Hnd.
  split_and!.
  - exists n. by destruct (pretty_nat_digits n).
  - done.
  - done.
  - intros [= Heq]. pose proof (free_name_has_digit prefix n) as Hd.
    rewrite Heq in Hd. congruence.
Qed.

Lemma C10_fresh_names_miss_parser_variables_witness :
  TOK_VAR "autovar_0" ≠ parse_variable "x".
Proof.
  refine (proj2 (proj2 (C10_fresh_names_miss_parser_variables "autovar" Emitter_init
                          "autovar_0" _ "x" _ _))).
  - vm_compute. reflexivity.
  - reflexivity.
Defined.

(** ** The match side *)

Lemma for_enumerate_cons_inv {A} (body : nat → A → M string) i x l st out st' :
  for_enumerate body i (x :: l) st = inr (out, st') →
  ∃ c st1 cs, body i x st = inr (c, st1)
              ∧ for_enumerate body (S i) l st1 = inr (cs, st')
              ∧ out = c +:+ cs.
Proof.
  cbn. intros (c & st1 & H1 & (cs & st2 & H2 & [-> ->]%ret_inv)%bind_inv)%bind_inv.
  eauto 10.
Qed.

Lemma check_child_inv children target lambda_args n i arg st code st' :
  check_child children target lambda_args n i arg st = inr (code, st') →
  ∃ operand, select_target target lambda_args i st = inr (operand, st)
             ∧ check_against children (bool_decide (is_Some lambda_args))
                 operand n arg st = inr (code, st').
Proof.
  unfold check_child. intros (operand & st1 & H1 & H2)%bind_inv.
  assert (st1 = st) as ->.
  { unfold select_target in H1. destruct lambda_args as [[l r]|].
    - destruct i as [|[|i]]; [by apply ret_inv in H1 as [_ ->]..|done].
    - by apply ret_inv in H1 as [_ ->]. }
  eauto.
Qed.


Lemma loop_commutative_inv children target left right n args st out st' :
  for_enumerate (check_child children target (Some (left, right)) n) 0 args st
  = inr (out, st') →
  (length args ≤ 2)%nat
  ∧ ∃ codes,
      checked_against children true n (take (length args) [left; right]) args
        st codes st'
      ∧ out = concat_strings codes.
Proof.
  intros H. destruct args as [|a0 [|a1 [|a2 rest]]].
  - apply ret_inv in H as [-> ->]. split; [cbn; lia|].
    exists []. split; [constructor|done].
  - apply for_enumerate_cons_inv in H as (c & st1 & cs & H1 & H2 & ->).
    apply check_child_inv in H1 as (operand & Hsel & Hchk).
    apply ret_inv in Hsel as [-> _]. apply ret_inv in H2 as [-> ->].
    split; [cbn; lia|]. exists [c]. split; [|done].
    cbn. econstructor; [done|constructor].
  - apply for_enumerate_cons_inv in H as (c & st1 & cs & H1 & H2 & ->).
    apply check_child_inv in H1 as (operand & Hsel & Hchk).
    apply ret_inv in Hsel as [-> _].
    apply for_enumerate_cons_inv in H2 as (c' & st2 & cs' & H1' & H2' & ->).
    apply check_child_inv in H1' as (operand' & Hsel' & Hchk').
    apply ret_inv in Hsel' as [-> _]. apply ret_inv in H2' as [-> ->].
    split; [cbn; lia|]. exists [c; c']. split; [|done].
    cbn. econstructor; [done|]. econstructor; [done|constructor].
  - apply for_enumerate_cons_inv in H as (c & st1 & cs & H1 & H2 & ->).
    apply for_enumerate_cons_inv in H2 as (c' & st2 & cs' & H1' & H2' & ->).
    apply for_enumerate_cons_inv in H2' as (c'' & st3 & cs'' & H1'' & _).
    by apply check_child_inv in H1'' as (operand & Hsel & _).
Qed.




(** ** Alternatives on the right of an [=] constraint *)











(** ** Variables: the rule by occurrence on examples *)

Example spec_first_binds :
  spec_variable ∅ "autovar_x" "op->getIn(0)" 2 Emitter_init
  = inr ("  Varnode* autovar_x = op->getIn(0);" +:+ nl,
         {| _variables := {["autovar_x"]} ∪ ∅; _declared_vars := ∅ |}).
Proof. reflexivity. Qed.

Example spec_later_checks :
  spec_variable {["autovar_x"]} "autovar_x" "op->getIn(1)" 2 Emitter_init
  = inr ("  if (op->getIn(1) != autovar_x) return 0;" +:+ nl, Emitter_init).
Proof. reflexivity. Qed.

(** ** Variables: the emitter follows the rule by occurrence *)

Lemma startswith_split p s : startswith p s = true → s = p +:+ slice_from (String.length p) s.
Proof.
  revert s. induction p as [|c p IH]; intros s; [done|].
  destruct s as [|d s]; [done|]. cbn. case_decide; [|done]. subst.
  intros H. rewrite string_app_cons. f_equal. by apply IH.
Qed.


Lemma parse_variable_is_parser_variable w :
  is_Word variable_chars w = true →
  ∃ v, parse_variable w = TOK_VAR v ∧ is_parser_variable v = true.
Proof.
  intros Hw. eexists. split; [done|]. unfold is_parser_variable.
  assert (∀ p s, startswith p (p +:+ s) = true
                 ∧ slice_from (String.length p) (p +:+ s) = s) as Hsplit.
  { induction p as [|c p IH]; intros s; [done|].
    rewrite string_app_cons. cbn. rewrite decide_True by done. apply IH. }
  destruct (Hsplit "autovar_" w) as [-> ->]. done.
Qed.


Lemma agree_get_free_name prefix seen st name st' :
  _get_free_name prefix st = inr (name, st') → agree seen st → agree seen st'.
Proof.
  intros (n & _ & -> & _ & _ & ->)%get_free_name_inv H v Hv. cbn.
  rewrite <- (H v Hv). split; [|set_solver].
  intros [Heq%elem_of_singleton|?]%elem_of_union; [|done].
  subst. by rewrite free_name_has_digit in Hv.
Qed.




Lemma keeps_ret {A} (a : A) : keeps (ret a).
Proof. by intros seen st b st' [_ ->]%ret_inv. Qed.

Lemma keeps_raise {A} e : keeps (@raise A e).
Proof. by intros seen st b st'. Qed.

Lemma keeps_lift {A} (r : result A) : keeps (lift r).
Proof. by intros seen st b st' [_ ->]%lift_inv. Qed.

Lemma keeps_get_free_name prefix : keeps (_get_free_name prefix).
Proof. intros seen st a st' H. by eapply agree_get_free_name. Qed.

Lemma keeps_emit_create_varnode name source n : keeps (_emit_create_varnode name source n).
Proof. by intros seen st a st' [= _ <-]. Qed.

Lemma keeps_select_target target lambda_args i : keeps (select_target target lambda_args i).
Proof.
  unfold select_target. destruct lambda_args as [[l r]|]; [|apply keeps_ret].
  destruct i as [|[|i]]; [apply keeps_ret..|apply keeps_raise].
Qed.

Create HintDb keeps discriminated.

#[local] Hint Resolve keeps_ret keeps_raise keeps_lift keeps_get_free_name
  keeps_emit_create_varnode keeps_select_target : keeps.










Lemma agree_empty declared :
  agree ∅ {| _variables := ∅; _declared_vars := declared |}.
Proof. intros v _. done. Qed.






(** ** Variables: the claim for every occurrence *)


(** * Part IV: further properties

    ** Strings *)

Lemma startswith_app p s : startswith p (p +:+ s) = true.
Proof.
  induction p as [|c p IH]; [done|].
  rewrite string_app_cons. cbn. by rewrite decide_True.
Qed.

Lemma slice_from_app p s : slice_from (String.length p) (p +:+ s) = s.
Proof. induction p as [|c p IH]; [done|]. by rewrite string_app_cons. Qed.

Lemma count_char_app c a b : count_char c (a +:+ b) = count_char c a + count_char c b.
Proof.
  induction a as [|d a IH]; [done|].
  rewrite string_app_cons. cbn. rewrite IH. lia.
Qed.

Lemma count_char_spaces c n : c ≠ " "%char → count_char c (spaces n) = 0.
Proof.
  intros Hc. induction n as [|n IH]; [done|].
  cbn. rewrite decide_False by done. apply IH.
Qed.

Lemma count_char_slice_from c n s :
  (count_char c (slice_from n s) ≤ count_char c s)%nat.
Proof.
  revert s. induction n as [|n IH]; intros s; [done|].
  destruct s as [|d s]; [done|]. cbn. specialize (IH s). lia.
Qed.

(** Counts in a text built from literals and names: the counts in the
    names stay, those in the literals are computed. *)
Ltac count_literals :=
  repeat match goal with
         | H : context [count_char _ _] |- _ => revert H
         end;
  repeat match goal with
         | |- context [count_char ?c ?s] =>
             is_var s; generalize (count_char c s); intro
         end;
  repeat match goal with
         | |- context [count_char ?c ?s] =>
             let v := eval vm_compute in (count_char c s) in
             change (count_char c s) with v
         end;
  lia.

(** ** Variables through the parser and back *)

(** X1: [to_pretty] undoes what [parse_variable] does to a name: the
    variable the parser builds from the word [w] prints as [w], whatever
    [w] is. *)
Theorem pretty_of_parsed_variable w : to_pretty (parse_variable w) = inr w.
Proof.
  unfold parse_variable. cbn [to_pretty].
  rewrite startswith_app. by rewrite slice_from_app.
Qed.

(** ** [to_c] *)

(** X2: [to_c] returns on exactly the tokens of value expressions:
    variables, sizes, numbers, and binary operations of such.  When it
    raises, it is [NotImplementedError], from an opcode or a list of
    alternatives below. *)
Theorem to_c_on_values t :
  (is_value t = true ↔ ∃ s, to_c t = inr s)
  ∧ (∀ e, to_c t = inl e → e = NotImplementedError).
Proof.
  induction t as [name|v IH|v size r sv _|k l r IHl IHr|name args _|elements _]
    using Token_nested_ind; cbn [to_c is_value].
  - split; [|done]. split; eauto.
  - destruct IH as [IHv IHe]. destruct (to_c v) as [e|s] eqn:Hv; cbn.
    + split; [|intros e' [= <-]; by apply IHe].
      split; [intros H; apply IHv in H as [? [=]]|intros [? [=]]].
    + split; [|done]. split; [eauto|]. intros _. apply IHv. eauto.
  - split; [|done]. split; eauto.
  - destruct IHl as [IHl IHle], IHr as [IHr IHre].
    destruct (to_c l) as [e|a] eqn:Hl; cbn.
    + split; [|intros e' [= <-]; by apply IHle].
      split; [|intros [? [=]]].
      intros [H _]%andb_prop. apply IHl in H as [? [=]].
    + destruct (to_c r) as [e|b] eqn:Hr; cbn.
      * split; [|intros e' [= <-]; by apply IHre].
        split; [|intros [? [=]]].
        intros [_ H]%andb_prop. apply IHr in H as [? [=]].
      * split; [|done]. split; [eauto|]. intros _.
        apply andb_true_intro. split; [apply IHl|apply IHr]; eauto.
  - split; [|by intros e [= <-]]. split; [done|intros [? [=]]].
  - split; [|by intros e [= <-]]. split; [done|intros [? [=]]].
Qed.

Lemma to_c_on_values_witness :
  is_value (TOK_BINARY_OPERATION TOK_BINOP_ADD var_x num_4) = true
  ∧ ∃ s, to_c (TOK_BINARY_OPERATION TOK_BINOP_ADD var_x num_4) = inr s.
Proof.
  split; [reflexivity|].
  exact (proj1 (proj1 (to_c_on_values (TOK_BINARY_OPERATION TOK_BINOP_ADD var_x num_4)))
           eq_refl).
Defined.

(** ** The check that a varnode is constant *)

(** X3: the text of [_emit_check_is_constant] opens one parenthesis
    more than it closes, and has no line end: around any balanced name
    it is not a C statement on a line of its own, unlike the text of
    [_emit_check], which is balanced and ends its line. *)
Theorem is_constant_check_unbalanced varnode_name n :
  opening (_emit_check_is_constant varnode_name n) = opening varnode_name + 3
  ∧ closing (_emit_check_is_constant varnode_name n) = closing varnode_name + 2
  ∧ count_char (ascii_of_nat 10) (_emit_check_is_constant varnode_name n)
    = count_char (ascii_of_nat 10) varnode_name
  ∧ (∀ left op right,
       opening (_emit_check left op right n)
       = opening left + opening op + opening right + 1
       ∧ closing (_emit_check left op right n)
         = closing left + closing op + closing right + 1
       ∧ count_char (ascii_of_nat 10) (_emit_check left op right n)
         = count_char (ascii_of_nat 10) left + count_char (ascii_of_nat 10) op
           + count_char (ascii_of_nat 10) right + 1).
Proof.
  unfold opening, closing, _emit_check_is_constant, _emit_check.
  rewrite !count_char_app, !count_char_spaces by done.
  split_and!; [count_literals..|].
  intros left op right. rewrite !count_char_app, !count_char_spaces by done.
  split_and!; count_literals.
Qed.

(** ** Alternatives from the parser *)

(** [parse_opcode_alt_expr] never trips the assertion of
    [TOK_OPCODE_OR]: it builds the alternatives only from two results or
    more, hands a single result back unchanged, and fails only on no
    result at all. *)
Lemma alternatives_from_parser results :
  match results with
  | [] => parse_opcode_alt_expr results = inl IndexError
  | [t] => parse_opcode_alt_expr results = inr t
  | _ => parse_opcode_alt_expr results = inr (TOK_OPCODE_OR results)
         ∧ TOK_OPCODE_OR_init results = inr (TOK_OPCODE_OR results)
  end.
Proof.
  unfold parse_opcode_alt_expr, TOK_OPCODE_OR_init.
  destruct results as [|t [|u rest]]; cbn [length].
  - by rewrite decide_False by lia.
  - by rewrite decide_False by lia.
  - by rewrite !decide_True by lia.
Qed.

(** ** Numbers through the parser *)

Lemma decimal_digit_val c :
  contains_char c decimal_digits = true → ∃ d, digit_val c = Some d ∧ (d < 10)%Z.
Proof.
  unfold decimal_digits. cbn.
  repeat (case_decide; [subst; eexists; split; [vm_compute; reflexivity|reflexivity]|]). done.
Qed.

Lemma hex_digit_val c :
  contains_char c hex_digits = true → ∃ d, digit_val c = Some d ∧ (d < 16)%Z.
Proof.
  unfold hex_digits. cbn.
  repeat (case_decide; [subst; eexists; split; [vm_compute; reflexivity|reflexivity]|]). done.
Qed.

Lemma digits_decimal s :
  all_chars (λ d, contains_char d decimal_digits) s = true →
  ∀ acc, ∃ z, digits 10 acc s = Some z.
Proof.
  induction s as [|c s IH]; intros Hs acc; [by eexists|].
  cbn in Hs. apply andb_prop in Hs as [Hc Hs].
  destruct (decimal_digit_val c Hc) as (d & Hd & Hlt).
  cbn [digits]. rewrite Hd.
  destruct (Z.ltb_spec d 10); [|lia]. by apply IH.
Qed.

Lemma digits_hex s :
  all_chars (λ d, contains_char d hex_digits) s = true →
  ∀ acc, ∃ z, digits 16 acc s = Some z.
Proof.
  induction s as [|c s IH]; intros Hs acc; [by eexists|].
  cbn in Hs. apply andb_prop in Hs as [Hc Hs].
  destruct (hex_digit_val c Hc) as (d & Hd & Hlt).
  cbn [digits]. rewrite Hd.
  destruct (Z.ltb_spec d 16); [|lia]. by apply IH.
Qed.

Lemma nonzero_digit_is_decimal c :
  contains_char c nonzero_digits = true → contains_char c decimal_digits = true.
Proof.
  unfold nonzero_digits, decimal_digits. cbn.
  repeat (case_decide; [by subst|]). done.
Qed.

Lemma nonzero_hex_digit_is_hex c :
  contains_char c nonzero_hex_digits = true → contains_char c hex_digits = true.
Proof.
  unfold nonzero_hex_digits, hex_digits. cbn.
  repeat (case_decide; [by subst|]). done.
Qed.

(** A decimal literal without a leading zero. *)
Lemma unsigned_literal_decimal s :
  char_then_chars nonzero_digits decimal_digits s = true →
  ∃ z, unsigned_literal s = Some z.
Proof.
  destruct s as [|c r]; [done|]. cbn [char_then_chars].
  intros [Hc Hr]%andb_prop.
  assert (∃ z, digits 10 0 (String c r) = Some z) as [z Hz].
  { apply digits_decimal. cbn [all_chars].
    by rewrite (nonzero_digit_is_decimal _ Hc), Hr. }
  exists z. rewrite <- Hz. clear Hz.
  revert Hc. unfold nonzero_digits. cbn.
  repeat (case_decide; [by subst|]). done.
Qed.

Lemma int0_decimal s :
  char_then_chars nonzero_digits decimal_digits s = true → ∃ z, int0 s = inr z.
Proof.
  intros Hs. destruct (unsigned_literal_decimal s Hs) as [z Hz].
  exists z. unfold int0.
  destruct s as [|c r]; [done|]. cbn [char_then_chars] in Hs.
  apply andb_prop in Hs as [Hc _].
  assert (c ≠ "-"%char ∧ c ≠ "+"%char) as [Hm Hp].
  { revert Hc. unfold nonzero_digits. cbn.
    repeat (case_decide; [by subst|]). done. }
  assert ((match String c r with
           | String "-" r0 => (true, r0)
           | String "+" r0 => (false, r0)
           | _ => (false, String c r)
           end) = (false, String c r)) as ->.
  { destruct c as [[] [] [] [] [] [] [] []]; done. }
  by rewrite Hz.
Qed.

Lemma int0_negative_literal r :
  char_then_chars nonzero_digits decimal_digits r = true →
  ∃ z, int0 (String "-" r) = inr z.
Proof.
  intros Hr. destruct (unsigned_literal_decimal _ Hr) as [z Hz].
  exists (- z)%Z. unfold int0. by rewrite Hz.
Qed.

Lemma int0_hex_literal r :
  char_then_chars nonzero_hex_digits hex_digits r = true →
  ∃ z, int0 (String "0" (String "x" r)) = inr z.
Proof.
  destruct r as [|c r]; [done|]. cbn [char_then_chars].
  intros [Hc Hr]%andb_prop.
  destruct (digits_hex (String c r)) with (acc := 0%Z) as [z Hz].
  { cbn [all_chars]. by rewrite (nonzero_hex_digit_is_hex _ Hc), Hr. }
  exists z. unfold int0, unsigned_literal, nonempty_digits.
  rewrite decide_True by by left. by rewrite Hz.
Qed.

(** X4: every string the grammar's [number] combines is one
    [TOK_NUMBER] takes: [int(val, 0)] accepts it, also as a size, so
    [parse_number] returns a token, for the default size, a literal size
    and a size of a variable alike; the token prints in C as the text
    that was parsed. *)
Theorem numbers_of_the_grammar num :
  is_number num = true →
  (∃ z, int0 num = inr z)
  ∧ (∃ t, parse_number [inl num] = inr t
          ∧ to_c t = inr num ∧ size_to_c t = inr "8")
  ∧ (∀ size sep, is_number size = true →
       ∃ t, parse_number [inl num; sep; inl size] = inr t
            ∧ to_c t = inr num ∧ size_to_c t = inr size)
  ∧ (∀ name sep,
       ∃ t, parse_number [inl num; sep; inr (TOK_SIZEOF (TOK_VAR name))] = inr t
            ∧ to_c t = inr num ∧ size_to_c t = inr (name +:+ "->getSize()")).
Proof.
  assert (∀ s, is_number s = true → ∃ z, int0 s = inr z) as Hint.
  { intros s. unfold is_number.
    intros [[[[H|H]%orb_prop|H]%orb_prop|H]%orb_prop|H]%orb_prop.
    - apply bool_decide_eq_true in H as ->. by eexists.
    - by apply int0_decimal.
    - apply andb_prop in H as [Hp Hr].
      rewrite (startswith_split _ _ Hp). by apply int0_negative_literal.
    - apply bool_decide_eq_true in H as ->. by eexists.
    - apply andb_prop in H as [Hp Hr].
      rewrite (startswith_split _ _ Hp). by apply int0_hex_literal. }
  intros Hnum. destruct (Hint num Hnum) as [z Hz].
  split_and!.
  - eauto.
  - eexists. unfold parse_number, TOK_NUMBER_init. rewrite Hz. cbn. done.
  - intros size sep Hsize. destruct (Hint size Hsize) as [zs Hzs].
    eexists. unfold parse_number, TOK_NUMBER_init. rewrite Hz. cbn.
    rewrite Hzs. cbn. done.
  - intros name sep. eexists. unfold parse_number, TOK_NUMBER_init.
    rewrite Hz. cbn. done.
Qed.

Lemma numbers_of_the_grammar_witness :
  is_number "0x1F" = true
  ∧ ∃ t, parse_number [inl "0x1F"; inl ":"; inl "-4"] = inr t
         ∧ to_c t = inr "0x1F" ∧ size_to_c t = inr "-4".
Proof.
  split; [reflexivity|].
  apply (proj1 (proj2 (proj2 (numbers_of_the_grammar "0x1F" eq_refl)))).
  reflexivity.
Defined.

(** ** Constraints *)

Lemma tok_eq_right_var l r : tok_eq l r = true → is_TOK_VAR r = true.
Proof. by destruct l, r. Qed.

Lemma to_check_c_inv self n st r self' st' :
  to_check_c self n st = inr (r, self', st') →
  compiled_constraint self n st r self' st'.
Proof.
  unfold to_check_c, compiled_constraint.
  destruct (_right self) as [name|v|v sz rp sv|k a b|name args|elements] eqn:Hr;
    cbn zeta; intros H.
  1-5: repeat case_decide; try done.
  1-15: try (destruct (tok_eq _ _) eqn:Heq;
             [apply ret_inv in H as [[= -> ->] ->]; left; split_and!; auto|]).
  1-15: try (by unfold bind, lift, raise, ret in H; repeat case_match).
  - apply bind_inv in H as (code & st1 & Hcode & [[= -> ->] ->]%ret_inv).
    right; left. split_and!; eauto.
  - case_decide as Hop; [|done].
    apply bind_inv in H as (or_func_name & st1 & Hname & H).
    apply bind_inv in H as (option_name & st2 & Hoption & H).
    destruct (existsb is_TOK_VAR elements) eqn:Hvars; [done|].
    apply bind_inv in H as (branches & st3 & Hbranches & [[= -> ->] ->]%ret_inv).
    right; right. split; [done|].
    eexists elements, or_func_name, st1, option_name, st2, branches.
    split_and!; try done.
    unfold with_or_func_name. by rewrite Hr.
Qed.

Lemma to_check_c_level self n st code m self' st' :
  to_check_c self n st = inr (RetTuple code m, self', st') →
  (m = n ∧ has_alternatives self = false ∧ self' = self)
  ∨ (m = n + 2 ∧ has_alternatives self = true
     ∧ ∃ name, self' = with_or_func_name self name).
Proof.
  intros [(Heq & -> & _ & Hr)|[(_ & Hop & -> & c & _ & Hr)|(_ & H)]]%to_check_c_inv.
  - left. unfold has_alternatives.
    apply tok_eq_right_var in Heq.
    destruct Hr as [[_ [= _ ->]]|[_ [= _ ->]]];
      by destruct (_right self).
  - left. injection Hr as _ ->. unfold has_alternatives.
    by destruct (_right self).
  - destruct H as (els & name & ? & ? & ? & ? & Hright & _ & _ & _ & _ & -> & [= _ ->]).
    right. unfold has_alternatives. rewrite Hright. eauto.
Qed.

(** X5: a constraint compiles in three cases only: its two sides are the
    same variable (then [=] gives no code, [<] and [>] give a bare
    [return 0;], and the emitter is unchanged); it is an equality with an
    opcode; it is an equality with alternatives of which none is a
    variable (then the level grows by 2 and the helper's name is stored).
    Every other constraint raises: a comparison with a number, with a
    binary operation or with another variable does not compile. *)
Theorem constraints_that_compile self n st :
  (∀ r self' st', to_check_c self n st = inr (r, self', st') →
                  compiled_constraint self n st r self' st')
  ∧ (tok_eq (_left self) (_right self) = false →
     is_TOK_OPCODE (_right self) = false →
     is_TOK_OPCODE_OR (_right self) = false →
     ∃ e, to_check_c self n st = inl e).
Proof.
  split; [intros r self' st'; apply to_check_c_inv|].
  intros Heq Hop Hor.
  destruct (to_check_c self n st) as [e|[[r self'] st']] eqn:H; [by eauto|].
  apply to_check_c_inv in H
    as [(Heq' & _)|[(_ & Hop' & _)|(_ & els & ? & ? & ? & ? & ? & Hr & _)]];
    [congruence|congruence|].
  by rewrite Hr in Hor.
Qed.

Lemma constraints_that_compile_witness :
  tok_eq var_x num_4 = false
  ∧ ∃ e, to_check_c (TOK_CONSTRAINT_init var_x "<" num_4) 2 Emitter_init = inl e.
Proof.
  split; [reflexivity|].
  apply (proj2 (constraints_that_compile (TOK_CONSTRAINT_init var_x "<" num_4)
                  2 Emitter_init)); reflexivity.
Defined.


Lemma fmap_levels n len :
  (λ k, n + 2 * k) <$> seq 0 (S len) = n :: ((λ k, n + 2 + 2 * k) <$> seq 0 len).
Proof.
  cbn [seq fmap list_fmap]. f_equal; [lia|].
  rewrite <- fmap_S_seq, <- list_fmap_compose.
  apply list_fmap_ext. intros _ k _. cbn. lia.
Qed.

(** X6: the constraints the loop of [emit_apply_op] puts on
    [finish_constraints] are those with alternatives on the right, in
    their order, each with its helper's name stored; the levels recorded
    are [n], [n + 2], [n + 4], ..., one step per helper opened; and
    [to_check_c_end], called on an entry, never fails its assertion. *)
Theorem finish_constraints_are_the_helpers cs :
  ∀ n st code fin st',
    check_constraints n cs st = inr (code, fin, st') →
    sides <$> fin.*2 = sides <$> List.filter has_alternatives cs
    ∧ fin.*1 = (λ k, n + 2 * k) <$> seq 0 (length fin)
    ∧ Forall (λ c, is_Some (_or_func_name c)) fin.*2
    ∧ Forall (λ p, ∀ s, to_check_c_end p.2 p.1 s ≠ inl AssertionError) fin.
Proof.
  induction cs as [|c cs IH]; intros n st code fin st'.
  { intros [[= -> ->] _]%ret_inv. by repeat constructor. }
  cbn [check_constraints].
  intros ([[code0 m|code0] c'] & st1 & Hc & H)%bind_inv; [|done].
  apply to_check_c_level in Hc as [(-> & Hno & ->)|(-> & Hyes & name & ->)].
  - rewrite decide_False in H by (intros ?; done).
    apply bind_inv in H as ([more fin'] & st2 & Hmore & [[= -> ->] ->]%ret_inv).
    cbn [List.filter]. rewrite Hno. by apply IH in Hmore.
  - rewrite decide_True in H by lia.
    apply bind_inv in H as ([more fin'] & st2 & Hmore & [[= -> ->] ->]%ret_inv).
    apply IH in Hmore as (Hsides & Hlevels & Hnames & Hend).
    cbn [List.filter]. rewrite Hyes. cbn [snd fst].
    split_and!.
    + rewrite !fmap_cons. by rewrite Hsides.
    + rewrite fmap_cons. cbn [length fst]. rewrite fmap_levels.
      by rewrite Hlevels.
    + rewrite fmap_cons. constructor; [by eexists|done].
    + constructor; [|done]. intros s. unfold to_check_c_end. cbn.
      unfold has_alternatives in Hyes.
      destruct (_right c); try done.
      unfold bind, _get_free_name. by destruct (first_free _ _ _ _).
Qed.

Lemma finish_constraints_are_the_helpers_witness :
  let alternatives := TOK_OPCODE_OR [TOK_OPCODE "INT_LEFT" [var_x; var_y];
                                     TOK_OPCODE "INT_RIGHT" [var_x; var_y]] in
  let cs := [TOK_CONSTRAINT_init var_x "=" var_x;
             TOK_CONSTRAINT_init var_y "=" alternatives;
             TOK_CONSTRAINT_init var_x "=" alternatives] in
  ∃ code fin st',
    check_constraints 2 cs Emitter_init = inr (code, fin, st')
    ∧ fin.*1 = [2; 4]
    ∧ sides <$> fin.*2 = [(var_y, "=", alternatives); (var_x, "=", alternatives)].
Proof.
  cbn zeta.
  destruct (check_constraints 2
              [TOK_CONSTRAINT_init var_x "=" var_x;
               TOK_CONSTRAINT_init var_y "="
                 (TOK_OPCODE_OR [TOK_OPCODE "INT_LEFT" [var_x; var_y];
                                 TOK_OPCODE "INT_RIGHT" [var_x; var_y]]);
               TOK_CONSTRAINT_init var_x "="
                 (TOK_OPCODE_OR [TOK_OPCODE "INT_LEFT" [var_x; var_y];
                                 TOK_OPCODE "INT_RIGHT" [var_x; var_y]])]
              Emitter_init) as [e|[[code fin] st']] eqn:Hrun;
    [by vm_compute in Hrun|].
  exists code, fin, st'. split; [done|].
  destruct (finish_constraints_are_the_helpers _ _ _ _ _ _ Hrun)
    as (Hsides & Hlevels & _ & _).
  split; [|exact Hsides].
  rewrite Hlevels.
  assert (length fin = 2) as ->; [|done].
  by rewrite <- (length_fmap snd), <- (length_fmap sides), Hsides.
Defined.


(** ** Match expressions *)

Lemma to_c_inr_is_value t : ∀ s, to_c t = inr s → is_value t = true.
Proof.
  induction t as [name|v IH|v size r sv _|k l r IHl IHr|name args _|elements _]
    using Token_nested_ind; intros s; cbn [to_c is_value]; try done.
  - destruct (to_c v) as [|a]; [done|]. intros _. by eapply IH.
  - destruct (to_c l) as [|a]; [done|]. destruct (to_c r) as [|b]; [done|].
    intros _. apply andb_true_intro. split; [by eapply IHl|by eapply IHr].
Qed.

Lemma forallb_of_Forall {A} (f : A → bool) l :
  Forall (λ x, f x = true) l → forallb f l = true.
Proof. induction 1 as [|x l Hx _ IH]; [done|]. cbn. by rewrite Hx, IH. Qed.

Lemma Forall_of_forallb {A} (f : A → bool) l :
  forallb f l = true → Forall (λ x, f x = true) l.
Proof.
  induction l as [|x l IH]; [constructor|]. cbn.
  intros [Hx Hl]%andb_prop. constructor; [done|by apply IH].
Qed.

Lemma for_enumerate_Forall {A} (body : nat → A → M string) (Q : A → Prop) l :
  Forall (λ x, ∀ i st c st1, body i x st = inr (c, st1) → Q x) l →
  ∀ i st out st', for_enumerate body i l st = inr (out, st') → Forall Q l.
Proof.
  induction 1 as [|x l Hx _ IH]; intros i st out st' H; [constructor|].
  apply for_enumerate_cons_inv in H as (c & st1 & cs & H1 & H2 & _).
  constructor; [by eapply Hx|by eapply IH].
Qed.

Lemma check_against_matchable children comm operand n arg st code st' :
  (∀ target m s out s', children target arg m s = inr (out, s') →
                        matchable arg = true) →
  check_against children comm operand n arg st = inr (code, st') →
  matchable arg = true.
Proof.
  intros Hch. unfold check_against.
  intros (c & st1 & H & _)%bind_inv.
  destruct arg as [name|v|v [s|size] r sv|k a b|name args|elements]; try done.
  - apply lift_inv in H as [H _].
    unfold _emit_check_constant_equal in H. cbn -[to_c] in H.
    destruct (to_c size) as [|sz] eqn:Hsz; [done|].
    cbn. by eapply to_c_inr_is_value.
  - apply lift_inv in H as [H _].
    unfold _emit_check_constant_equal in H. cbn -[to_c] in H.
    destruct (to_c (TOK_BINARY_OPERATION k a b)) as [|c'] eqn:Hc; [done|].
    by eapply to_c_inr_is_value.
  - assert (∃ v m s out s',
              _emit_check_opcode_with children v (TOK_OPCODE name args) m s
              = inr (out, s')) as (v & m & s & out & s' & Hw).
    { destruct comm; [by eauto 10|].
      apply bind_inv in H as (vn & st2 & _ & H).
      apply bind_inv in H as (decl & st3 & _ & H).
      apply bind_inv in H as (chk & st4 & H & _). eauto 10. }
    unfold _emit_check_opcode_with in Hw.
    apply bind_inv in Hw as (? & ? & _ & Hw).
    apply bind_inv in Hw as (? & ? & _ & Hw).
    apply bind_inv in Hw as (? & ? & _ & Hw).
    apply bind_inv in Hw as (? & ? & Hw & _).
    by eapply Hch.
Qed.

Lemma check_opcode_children_matchable opcode :
  ∀ target n st out st',
    _emit_check_opcode_children target opcode n st = inr (out, st') →
    is_TOK_OPCODE opcode = true ∧ matchable opcode = true.
Proof.
  induction opcode as [name|v _|v size r sv _|k l r _ _|name args IH|elements _]
    using Token_nested_ind; intros target n st out st' H;
    try (cbn in H; apply bind_inv in H as (? & ? & _ & H); done).
  split; [done|].
  cbn [_emit_check_opcode_children] in H.
  apply bind_inv in H as (pretty_opcode & st1 & _ & H).
  assert (∀ lambda_args m,
            Forall (λ x, ∀ i st c st1,
                      check_child _emit_check_opcode_children target lambda_args m i x st
                      = inr (c, st1) → matchable x = true) args) as Hargs.
  { intros lambda_args m. eapply Forall_impl; [exact IH|].
    intros arg Harg i s c s1 (operand & _ & Hc)%check_child_inv.
    eapply check_against_matchable; [|exact Hc].
    intros t m' s' o s'' Hrec. by eapply Harg. }
  cbn [matchable]. apply andb_true_intro.
  case_decide as Hcomm.
  - apply bind_inv in H as (check_lambda_name & st2 & _ & H).
    apply bind_inv in H as (varnode_left_name & st3 & _ & H).
    apply bind_inv in H as (varnode_right_name & st4 & _ & H).
    apply bind_inv in H as (body & st5 & Hbody & _).
    split.
    + apply forallb_of_Forall.
      by eapply for_enumerate_Forall; [apply Hargs|exact Hbody].
    + apply loop_commutative_inv in Hbody as [Hlen _].
      by apply bool_decide_eq_true.
  - apply bind_inv in H as (body & st2 & Hbody & _).
    split; [|done].
    apply forallb_of_Forall.
    by eapply for_enumerate_Forall; [apply Hargs|exact Hbody].
Qed.

Lemma for_enumerate_pure {A} (f : A → string) l :
  ∀ i st, for_enumerate (λ _ x, ret (f x)) i l st = inr (concat_strings (f <$> l), st).
Proof.
  induction l as [|x l IH]; intros i st; [done|].
  cbn. unfold bind at 1. cbn. unfold bind. by rewrite IH.
Qed.

Lemma emit_apply_op_inv class_name match_expr constraints replace_expr st out st' :
  emit_apply_op class_name match_expr constraints replace_expr st = inr (out, st') →
  ∃ match_name match_args replace_name replace_args
    decls st1 checks st2 opened st3 closed st4 inputs,
    match_expr = TOK_OPCODE match_name match_args
    ∧ replace_expr = TOK_OPCODE replace_name replace_args
    ∧ declare_all (get_variables replace_expr) st = inr (decls, st1)
    ∧ _emit_check_opcode_children "op" match_expr 2 st1 = inr (checks, st2)
    ∧ check_constraints 2 constraints st2 = inr (opened, st3)
    ∧ close_helpers opened.2 st3 = inr (closed, st4)
    ∧ create_inputs replace_args st4 = inr (inputs, st')
    ∧ out = apply_op_text class_name match_name match_args constraints
              replace_name replace_args decls checks opened.1 closed inputs.
Proof.
  unfold emit_apply_op. cbn zeta.
  destruct match_expr as [| | | |match_name match_args|]; try done.
  intros (decls & st1 & Hdecls & H)%bind_inv.
  apply bind_inv in H as (checks & st2 & Hchecks & H).
  apply bind_inv in H as (opened & st3 & Hopened & H).
  apply bind_inv in H as (closed & st4 & Hclosed & H).
  destruct replace_expr as [| | | |replace_name replace_args|]; try done.
  apply bind_inv in H as (inserts & st5 & Hins & H).
  apply bind_inv in H as (removes & st6 & Hrem & H).
  apply bind_inv in H as (inputs & st7 & Hinputs & [-> ->]%ret_inv).
  rewrite for_enumerate_pure in Hins. injection Hins as <- <-.
  rewrite for_enumerate_pure in Hrem. injection Hrem as <- <-.
  eexists match_name, match_args, replace_name, replace_args,
    decls, st1, checks, st2, opened, st3, closed, st4, inputs.
  by split_and!.
Qed.

Lemma check_opcode_inv varnode opcode n st out st' :
  _emit_check_opcode varnode opcode n st = inr (out, st') →
  is_value varnode = true ∧ is_TOK_OPCODE opcode = true ∧ matchable opcode = true.
Proof.
  unfold _emit_check_opcode, _emit_check_opcode_with.
  intros (v & st1 & [Hv _]%lift_inv & H)%bind_inv.
  apply bind_inv in H as (pcode_varname & st2 & _ & H).
  apply bind_inv in H as (name & st3 & _ & H).
  apply bind_inv in H as (rest & st4 & H & _).
  apply check_opcode_children_matchable in H as [? ?].
  split_and!; [by eapply to_c_inr_is_value|done|done].
Qed.

(** X7: a match expression the emitter gets through is an opcode whose
    arguments, at every depth, are variables, binary operations of
    values, numbers whose size is a value (never a literal size), or
    opcodes again, with at most two arguments under a commutative opcode;
    a [TOK_SIZEOF] or a list of alternatives as an argument raises.  The
    same holds where a constraint holds a value against an opcode. *)
Theorem match_expressions_that_compile opcode n st out st' :
  (∀ target, _emit_check_opcode_children target opcode n st = inr (out, st') →
             is_TOK_OPCODE opcode = true ∧ matchable opcode = true)
  ∧ (∀ varnode, _emit_check_opcode varnode opcode n st = inr (out, st') →
                is_value varnode = true
                ∧ is_TOK_OPCODE opcode = true ∧ matchable opcode = true).
Proof.
  split.
  - intros target. apply check_opcode_children_matchable.
  - intros varnode. apply check_opcode_inv.
Qed.

Lemma match_expressions_that_compile_witness :
  ∃ out st',
    _emit_check_opcode_children "op"
      (TOK_OPCODE "INT_ADD" [TOK_OPCODE "INT_LEFT" [var_x; num_1_sizeof_x]; var_y])
      2 Emitter_init = inr (out, st')
    ∧ matchable
        (TOK_OPCODE "INT_ADD" [TOK_OPCODE "INT_LEFT" [var_x; num_1_sizeof_x]; var_y])
      = true.
Proof.
  destruct (_emit_check_opcode_children "op"
              (TOK_OPCODE "INT_ADD"
                 [TOK_OPCODE "INT_LEFT" [var_x; num_1_sizeof_x]; var_y])
              2 Emitter_init) as [e|[out st']] eqn:Hrun;
    [by vm_compute in Hrun|].
  exists out, st'. split; [done|].
  exact (proj2 (proj1 (match_expressions_that_compile _ _ _ _ _) _ Hrun)).
Defined.

(** ** Rules *)










(** ** What only the declarations change

    A relation on emitters that is a preorder and does not look at
    [_variables] holds across every part of the emitter but
    [_emit_declare_var]. *)

Section Respects.

Variable R : Emitter → Emitter → Prop.

Hypothesis R_refl : ∀ st, R st st.

Hypothesis R_trans : ∀ st1 st2 st3, R st1 st2 → R st2 st3 → R st1 st3.

Hypothesis R_variables :
  ∀ st vars, R st {| _variables := vars; _declared_vars := _declared_vars st |}.

Local Abbreviation resp := (respects R).

Lemma respects_ret {A} (a : A) : resp (ret a).
Proof. intros st b st' [_ ->]%ret_inv. apply R_refl. Qed.

Lemma respects_raise {A} e : resp (@raise A e).
Proof. by intros st b st'. Qed.

Lemma respects_lift {A} (r : result A) : resp (lift r).
Proof. intros st b st' [_ ->]%lift_inv. apply R_refl. Qed.

Lemma respects_bind {A B} (m : M A) (k : A → M B) :
  resp m → (∀ a, resp (k a)) → resp (bind m k).
Proof.
  intros Hm Hk st b st' (a & st1 & H1 & H2)%bind_inv.
  eapply R_trans; [by eapply Hm|by eapply Hk].
Qed.

Lemma respects_for_enumerate {A} (body : nat → A → M string) i l :
  (∀ j x, x ∈ l → resp (body j x)) → resp (for_enumerate body i l).
Proof.
  revert i. induction l as [|x l IH]; intros i Hbody; cbn.
  - apply respects_ret.
  - apply respects_bind; [apply Hbody; by left|]. intros s.
    apply respects_bind; [|intros t; apply respects_ret].
    apply IH. intros j y Hy. apply Hbody. by right.
Qed.

Lemma respects_get_free_name prefix : resp (_get_free_name prefix).
Proof.
  intros st name st' (n & _ & _ & _ & _ & ->)%get_free_name_inv.
  apply R_variables.
Qed.

Lemma respects_variables_add name : resp (variables_add name).
Proof. intros st a st' [= _ <-]. apply R_variables. Qed.

Lemma respects_emit_create_varnode name source n :
  resp (_emit_create_varnode name source n).
Proof. intros st a st' [= _ <-]. apply R_refl. Qed.

Create HintDb respects discriminated.

#[local] Hint Resolve respects_ret respects_raise respects_lift respects_get_free_name
  respects_variables_add respects_emit_create_varnode : respects.

Ltac respects_step :=
  first
    [ solve [ eauto with respects ]
    | apply respects_bind; [|intros ?]
    | progress case_match
    | progress case_decide ].

Lemma respects_emit_create_var v parent i : resp (_emit_create_var v parent i).
Proof. unfold _emit_create_var. repeat respects_step. Qed.

Lemma respects_emit_create_const c parent i : resp (_emit_create_const c parent i).
Proof. unfold _emit_create_const. repeat respects_step. Qed.

#[local] Hint Resolve respects_emit_create_var respects_emit_create_const : respects.

Lemma respects_emit_create_opcode opcode :
  ∀ parent i, resp (_emit_create_opcode opcode parent i).
Proof.
  induction opcode as [| | | |name args IH|] using Token_nested_ind;
    intros parent i; cbn [_emit_create_opcode]; try by repeat respects_step.
  do 4 respects_step.
  - apply respects_for_enumerate. intros j x Hx.
    rewrite Forall_forall in IH. specialize (IH x Hx).
    destruct x; eauto with respects.
  - eauto with respects.
Qed.

Lemma respects_emit_check_opcode_with children varnode opcode n :
  (∀ target, resp (children target opcode n)) →
  resp (_emit_check_opcode_with children varnode opcode n).
Proof. intros H. unfold _emit_check_opcode_with. repeat respects_step. Qed.

Lemma respects_bind_var var_name target_arg n :
  resp (λ st,
    if decide (var_name ∈ _variables st) then
      ret (_emit_check_equality target_arg var_name n) st
    else
      (_ <- variables_add var_name;;
       _emit_create_varnode var_name target_arg n) st).
Proof.
  intros st a st'. case_decide.
  - apply respects_ret.
  - assert (resp (_ <- variables_add var_name;;
                  _emit_create_varnode var_name target_arg n)) as Hg
      by repeat respects_step.
    apply Hg.
Qed.

Lemma respects_check_child children target lambda_args n i arg :
  (∀ t m, resp (children t arg m)) →
  resp (check_child children target lambda_args n i arg).
Proof.
  intros H. unfold check_child, select_target, check_against.
  respects_step.
  { repeat respects_step. }
  respects_step; [|eauto with respects].
  destruct arg; try by eauto with respects.
  - apply respects_bind_var.
  - destruct (bool_decide _).
    + by apply respects_emit_check_opcode_with.
    + repeat respects_step; by apply respects_emit_check_opcode_with.
Qed.

Lemma respects_emit_check_opcode_children opcode :
  ∀ target n, resp (_emit_check_opcode_children target opcode n).
Proof.
  induction opcode as [| | | |name args IH|] using Token_nested_ind;
    intros target n; cbn [_emit_check_opcode_children]; try by repeat respects_step.
  rewrite Forall_forall in IH.
  respects_step; [eauto with respects|].
  case_decide.
  - do 4 respects_step.
    + apply respects_for_enumerate. intros j x Hx. apply respects_check_child. auto.
    + repeat respects_step.
  - respects_step; [|eauto with respects].
    apply respects_for_enumerate. intros j x Hx. apply respects_check_child. auto.
Qed.

Lemma respects_emit_check_opcode varnode opcode n :
  resp (_emit_check_opcode varnode opcode n).
Proof.
  apply respects_emit_check_opcode_with. intros.
  apply respects_emit_check_opcode_children.
Qed.

#[local] Hint Resolve respects_emit_create_opcode respects_emit_check_opcode_children
  respects_emit_check_opcode : respects.

Lemma respects_or_branches left elements option_name n :
  resp (or_branches left elements option_name n).
Proof.
  unfold or_branches. respects_step; [repeat respects_step|].
  respects_step; [|repeat respects_step].
  apply respects_for_enumerate. intros. repeat respects_step.
Qed.

#[local] Hint Resolve respects_or_branches : respects.

Lemma respects_if_bound {A} var_name (m : M A) e :
  resp m →
  resp (λ st, if decide (var_name ∈ _variables st) then m st else inl e).
Proof. intros Hm st a st'. case_decide; [apply Hm|done]. Qed.

Lemma respects_to_check_c self n : resp (to_check_c self n).
Proof.
  unfold to_check_c.
  destruct (_right self) eqn:Hr; repeat case_decide; try (by repeat respects_step);
    destruct (tok_eq _ _); try (by repeat respects_step);
    apply respects_if_bound; repeat respects_step.
Qed.

Lemma respects_to_check_c_end self n : resp (to_check_c_end self n).
Proof. unfold to_check_c_end. repeat respects_step. Qed.

#[local] Hint Resolve respects_to_check_c respects_to_check_c_end : respects.

Lemma respects_check_constraints constraints :
  ∀ n, resp (check_constraints n constraints).
Proof.
  induction constraints as [|c rest IH]; intros n; cbn [check_constraints].
  - eauto with respects.
  - respects_step; [eauto with respects|].
    destruct a as [[code lvl|code] c']; [|eauto with respects].
    case_decide; (respects_step; [apply IH|eauto with respects]).
Qed.

Lemma respects_close_helpers finish_constraints : resp (close_helpers finish_constraints).
Proof.
  unfold close_helpers. apply respects_for_enumerate. eauto with respects.
Qed.

Lemma respects_create_inputs replace_args : resp (create_inputs replace_args).
Proof.
  unfold create_inputs. apply respects_for_enumerate.
  intros j x _. destruct x; eauto with respects.
Qed.

End Respects.

Lemma same_declared_refl st : same_declared st st.
Proof. done. Qed.

Lemma same_declared_trans st1 st2 st3 :
  same_declared st1 st2 → same_declared st2 st3 → same_declared st1 st3.
Proof. unfold same_declared. congruence. Qed.

Lemma same_declared_variables st vars :
  same_declared st {| _variables := vars; _declared_vars := _declared_vars st |}.
Proof. done. Qed.

Lemma declare_loop_declared l :
  ∀ i st decls st',
    for_enumerate (λ _ var, _emit_declare_var var) i l st = inr (decls, st') →
    ∃ names, mapM to_c l = inr names
             ∧ _declared_vars st' = list_to_set names ∪ _declared_vars st.
Proof.
  induction l as [|v l IH]; intros i st decls st' H.
  - apply ret_inv in H as [_ ->]. exists []. split; [done|]. cbn. set_solver.
  - apply for_enumerate_cons_inv in H as (c & st1 & cs & H1 & H2 & _).
    unfold _emit_declare_var in H1.
    apply bind_inv in H1 as (name & st0 & [Hname ->]%lift_inv & [= _ <-]).
    apply IH in H2 as (names & Hnames & Hdecl).
    exists (name :: names). split.
    + change (mapM to_c (v :: l))
        with (rbind (to_c v) (λ b, rbind (mapM to_c l) (λ bs, inr (b :: bs)))).
      by rewrite Hname, Hnames.
    + rewrite Hdecl. cbn. set_solver.
Qed.

(** X9: [_declared_vars] is written by the declarations at the start of
    [emit_apply_op] and by nothing else: checking a match expression,
    compiling and closing a constraint and creating an opcode leave it
    as it is, and when a rule has compiled, the set holds the names of
    the variables of the replacement (and what it held before). *)
Theorem declared_are_the_replacement_variables :
  (∀ target opcode n, respects same_declared (_emit_check_opcode_children target opcode n))
  ∧ (∀ self n, respects same_declared (to_check_c self n))
  ∧ (∀ self n, respects same_declared (to_check_c_end self n))
  ∧ (∀ opcode parent i, respects same_declared (_emit_create_opcode opcode parent i))
  ∧ (∀ class_name match_expr constraints replace_expr st out st',
       emit_apply_op class_name match_expr constraints replace_expr st = inr (out, st') →
       ∃ names, yielded_names (get_variables replace_expr) = inr names
                ∧ _declared_vars st' = list_to_set names ∪ _declared_vars st).
Proof.
  pose proof same_declared_refl as Hr.
  pose proof same_declared_trans as Ht.
  pose proof same_declared_variables as Hv.
  split_and!.
  - intros. by apply respects_emit_check_opcode_children.
  - intros. by apply respects_to_check_c.
  - intros. by apply respects_to_check_c_end.
  - intros. by apply respects_emit_create_opcode.
  - intros class_name match_expr constraints replace_expr st out st'
      (mn & margs & rn & rargs & decls & st1 & checks & st2 & opened & st3
       & closed & st4 & inputs & -> & -> & Hdecls & Hchecks & Hopened & Hclosed
       & Hinputs & _)%emit_apply_op_inv.
    unfold declare_all in Hdecls.
    apply bind_inv in Hdecls as (d & st0 & Hloop & Hend).
    destruct (get_variables (TOK_OPCODE rn rargs)).2; [done|].
    apply ret_inv in Hend as [_ ->].
    apply declare_loop_declared in Hloop as (names & Hnames & Hdecl).
    exists names. split; [done|]. rewrite <- Hdecl.
    apply (respects_emit_check_opcode_children same_declared Hr Ht Hv) in Hchecks.
    apply (respects_check_constraints same_declared Hr Ht Hv) in Hopened.
    apply (respects_close_helpers same_declared Hr Ht Hv) in Hclosed.
    apply (respects_create_inputs same_declared Hr Ht Hv) in Hinputs.
    unfold same_declared in *. congruence.
Qed.

Lemma declared_are_the_replacement_variables_witness :
  ∃ out st',
    emit_apply_op "Shift" (TOK_OPCODE "INT_LEFT" [var_x; var_y]) []
      (TOK_OPCODE "INT_RIGHT" [var_y; var_y]) Emitter_init = inr (out, st')
    ∧ _declared_vars st' = {[ "autovar_y" ]}.
Proof.
  destruct (emit_apply_op "Shift" (TOK_OPCODE "INT_LEFT" [var_x; var_y]) []
              (TOK_OPCODE "INT_RIGHT" [var_y; var_y]) Emitter_init)
    as [e|[out st']] eqn:Hrun; [by vm_compute in Hrun|].
  exists out, st'. split; [done|].
  destruct (proj2 (proj2 (proj2 (proj2 declared_are_the_replacement_variables)))
              _ _ _ _ _ _ _ Hrun) as (names & Hnames & ->).
  injection Hnames as <-. cbn. set_solver.
Defined.

(** ** Parentheses *)

Lemma no_parentheses_spec s :
  no_parentheses s = true → count_char "(" s = 0 ∧ count_char ")" s = 0.
Proof.
  unfold no_parentheses, opening, closing.
  intros [H1 H2]%andb_prop.
  by apply bool_decide_eq_true in H1, H2.
Qed.

Lemma count_char_join c sep l :
  count_char c sep = 0 →
  count_char c (join sep l) = list_sum (count_char c <$> l).
Proof.
  intros Hsep. induction l as [|x l IH]; [done|].
  destruct l as [|y l].
  - cbn. lia.
  - change (join sep (x :: y :: l)) with (x +:+ sep +:+ join sep (y :: l)).
    rewrite !count_char_app, IH, Hsep. cbn. lia.
Qed.

Lemma pretty_variable_parentheses name :
  no_parentheses name = true →
  ∃ s, to_pretty (TOK_VAR name) = inr s
       ∧ count_char "(" s = 0 ∧ count_char ")" s = 0.
Proof.
  intros [Ho Hc]%no_parentheses_spec. cbn [to_pretty].
  destruct (startswith "autovar_" name); eexists; (split; [done|]); [|done].
  pose proof (count_char_slice_from "(" (String.length "autovar_") name).
  pose proof (count_char_slice_from ")" (String.length "autovar_") name).
  lia.
Qed.

Lemma pretty_parentheses t :
  parser_built t = true →
  ∃ s, to_pretty t = inr s
       ∧ count_char ")" s = count_char "(" s + binary_operations t.
Proof.
  induction t as [name|v _|v size r sv _|k l r IHl IHr|name args IH|elements IH]
    using Token_nested_ind; cbn [parser_built binary_operations].
  - intros (s & Hs & Ho & Hc)%pretty_variable_parentheses.
    exists s. split; [done|lia].
  - destruct v as [name| | | | |]; try done.
    intros (s & Hs & Ho & Hc)%pretty_variable_parentheses.
    cbn [to_pretty] in *. rewrite Hs. eexists. split; [done|].
    rewrite !count_char_app. count_literals.
  - intros [[Ho Hc]%no_parentheses_spec Hsize]%andb_prop.
    destruct size as [s|[|[name| | | | |]| | | |]], sv as [z|]; try done.
    + apply no_parentheses_spec in Hsize as [Hso Hsc].
      cbn [to_pretty].
      destruct (decide (z = 8%Z)) as [->|Hz].
      * eexists. split; [done|lia].
      * exists (r +:+ ":" +:+ s). split.
        { destruct z as [|p|p]; try done.
          do 4 (destruct p as [p|p|]; try done). }
        rewrite !count_char_app. count_literals.
    + apply pretty_variable_parentheses in Hsize as (s & Hs & Hso & Hsc).
      cbn [to_pretty] in *. rewrite Hs. eexists. split; [done|].
      rewrite !count_char_app. count_literals.
  - intros [Hl Hr]%andb_prop.
    destruct (IHl Hl) as (a & Ha & Hca), (IHr Hr) as (b & Hb & Hcb).
    cbn [to_pretty]. rewrite Ha, Hb. eexists. split; [done|].
    rewrite !count_char_app. destruct k; count_literals.
  - intros [[Ho Hc]%no_parentheses_spec Hargs]%andb_prop.
    assert (∃ l, mapM to_pretty args = inr l
                 ∧ list_sum (count_char ")" <$> l)
                   = list_sum (count_char "(" <$> l)
                     + list_sum (map binary_operations args)) as (l & Hl & Hsum).
    { clear Ho Hc. induction IH as [|a args Ha _ IHargs]; [by exists []|].
      cbn in Hargs. apply andb_prop in Hargs as [Hb Hrest].
      destruct (Ha Hb) as (s & Hs & Hcs), (IHargs Hrest) as (l & Hl & Hsum).
      exists (s :: l). split.
      - change (mapM to_pretty (a :: args))
          with (rbind (to_pretty a)
                  (λ b, rbind (mapM to_pretty args) (λ bs, inr (b :: bs)))).
        by rewrite Hs, Hl.
      - unfold list_sum in *. cbn [fold_right map fmap list_fmap]. lia. }
    cbn [to_pretty]. rewrite Hl. eexists. split; [done|].
    rewrite !count_char_app, !count_char_join by done.
    change (list_sum (map binary_operations args))
      with (list_sum (map binary_operations args)) in Hsum.
    count_literals.
  - intros Hargs.
    assert (∃ l, mapM to_pretty elements = inr l
                 ∧ list_sum (count_char ")" <$> l)
                   = list_sum (count_char "(" <$> l)
                     + list_sum (map binary_operations elements)) as (l & Hl & Hsum).
    { induction IH as [|a args Ha _ IHargs]; [by exists []|].
      cbn in Hargs. apply andb_prop in Hargs as [Hb Hrest].
      destruct (Ha Hb) as (s & Hs & Hcs), (IHargs Hrest) as (l & Hl & Hsum).
      exists (s :: l). split.
      - change (mapM to_pretty (a :: args))
          with (rbind (to_pretty a)
                  (λ b, rbind (mapM to_pretty args) (λ bs, inr (b :: bs)))).
        by rewrite Hs, Hl.
      - unfold list_sum in *. cbn [fold_right map fmap list_fmap]. lia. }
    cbn [to_pretty]. rewrite Hl. eexists. split; [done|].
    rewrite !count_char_join by done. lia.
Qed.

Lemma to_c_parentheses t :
  parser_built t = true → is_value t = true →
  ∃ c, to_c t = inr c ∧ count_char ")" c = count_char "(" c.
Proof.
  induction t as [name|v _|v size r sv _|k l r IHl IHr|name args _|elements _]
    using Token_nested_ind; cbn [parser_built is_value]; try done.
  - intros [Ho Hc]%no_parentheses_spec _. exists name. split; [done|lia].
  - destruct v as [name| | | | |]; try done.
    intros [Ho Hc]%no_parentheses_spec _. eexists. split; [done|].
    rewrite !count_char_app. count_literals.
  - intros [[Ho Hc]%no_parentheses_spec _]%andb_prop _.
    exists r. split; [done|lia].
  - intros [Hl Hr]%andb_prop [Hvl Hvr]%andb_prop.
    destruct (IHl Hl Hvl) as (a & Ha & Hca), (IHr Hr Hvr) as (b & Hb & Hcb).
    cbn [to_c]. rewrite Ha, Hb. eexists. split; [done|].
    rewrite !count_char_app. destruct k; count_literals.
Qed.

(** X10: on the tokens the parser builds, [to_pretty] always returns,
    and its text closes one parenthesis more than it opens for every binary
    operation in the token: [TOK_BINARY_OPERATION.to_pretty] writes the
    closing parenthesis only.  The C text of a value, from [to_c], is
    balanced. *)
Theorem pretty_text_closes_more_than_it_opens t :
  parser_built t = true →
  (∃ s, to_pretty t = inr s ∧ closing s = opening s + binary_operations t)
  ∧ (is_value t = true → ∃ c, to_c t = inr c ∧ closing c = opening c).
Proof.
  intros Ht. split.
  - by apply pretty_parentheses.
  - intros Hv. by apply to_c_parentheses.
Qed.

Lemma pretty_text_closes_more_than_it_opens_witness :
  parser_built (TOK_OPCODE "INT_ADD" [TOK_BINARY_OPERATION TOK_BINOP_ADD var_x num_4; var_y])
  = true
  ∧ ∃ s, to_pretty (TOK_OPCODE "INT_ADD"
                      [TOK_BINARY_OPERATION TOK_BINOP_ADD var_x num_4; var_y]) = inr s
         ∧ closing s = opening s + 1.
Proof.
  split; [reflexivity|].
  exact (proj1 (pretty_text_closes_more_than_it_opens
                  (TOK_OPCODE "INT_ADD"
                     [TOK_BINARY_OPERATION TOK_BINOP_ADD var_x num_4; var_y])
                  eq_refl)).
Defined.

(** ** The variables of a token *)

Lemma yield_from_variables (g h : gen Token) :
  g.2 = None → Forall (λ v, is_TOK_VAR v = true) g.1 →
  h.2 = None → Forall (λ v, is_TOK_VAR v = true) h.1 →
  (yield_from g h).2 = None ∧ Forall (λ v, is_TOK_VAR v = true) (yield_from g h).1.
Proof.
  intros Hg Hgv Hh Hhv. unfold yield_from. rewrite Hg. cbn.
  split; [done|]. by apply Forall_app.
Qed.

Lemma get_variables_parser_built t :
  parser_built t = true →
  (get_variables t).2 = None ∧ Forall (λ v, is_TOK_VAR v = true) (get_variables t).1.
Proof.
  induction t as [name|v _|v size r sv _|k l r IHl IHr|name args IH|elements IH]
    using Token_nested_ind; cbn [parser_built get_variables].
  - intros _. split; [done|]. by repeat constructor.
  - destruct v; try done. intros _. split; [done|]. by repeat constructor.
  - intros [_ Hsize]%andb_prop.
    destruct size as [s|[|[name| | | | |]| | | |]], sv as [z|]; try done.
    split; [done|]. by repeat constructor.
  - intros [Hl Hr]%andb_prop.
    destruct (IHl Hl), (IHr Hr). by apply yield_from_variables.
  - intros [_ Hargs]%andb_prop.
    induction IH as [|a args Ha _ IHargs]; [by split|].
    cbn in Hargs. apply andb_prop in Hargs as [Hb Hrest].
    destruct (Ha Hb), (IHargs Hrest). by apply yield_from_variables.
  - intros Hargs.
    induction IH as [|a args Ha _ IHargs]; [by split|].
    cbn in Hargs. apply andb_prop in Hargs as [Hb Hrest].
    destruct (Ha Hb), (IHargs Hrest). by apply yield_from_variables.
Qed.

Lemma declare_loop_returns l :
  Forall (λ v, is_TOK_VAR v = true) l →
  ∀ i st, ∃ decls st',
    for_enumerate (λ _ var, _emit_declare_var var) i l st = inr (decls, st').
Proof.
  induction 1 as [|v l Hv _ IH]; intros i st; [by eexists _, _|].
  destruct v as [name| | | | |]; try done.
  cbn [for_enumerate]. unfold bind at 1. cbn.
  destruct (IH (S i) {| _variables := _variables st;
                        _declared_vars := {[name]} ∪ _declared_vars st |})
    as (decls & st' & Hrest).
  unfold bind at 1. cbn in Hrest |- *. rewrite Hrest. by eexists _, _.
Qed.

(** X11: on a token the parser builds, [get_variables] runs to its end
    without raising and yields variables only (a number with a literal
    size yields none); so the declarations [emit_apply_op] starts with
    do not fail, whatever the emitter holds. *)
Theorem variables_of_parsed_tokens t :
  parser_built t = true →
  (get_variables t).2 = None
  ∧ Forall (λ v, is_TOK_VAR v = true) (get_variables t).1
  ∧ ∀ st, ∃ decls st', declare_all (get_variables t) st = inr (decls, st').
Proof.
  intros [Hend Hvars]%get_variables_parser_built.
  split_and!; [done|done|].
  intros st. unfold declare_all.
  destruct (declare_loop_returns _ Hvars 0 st) as (decls & st' & Hloop).
  unfold bind. rewrite Hloop, Hend. by eexists _, _.
Qed.

Lemma variables_of_parsed_tokens_witness :
  parser_built (TOK_OPCODE "INT_ADD" [var_x; num_1_sizeof_x; num_4]) = true
  ∧ (get_variables (TOK_OPCODE "INT_ADD" [var_x; num_1_sizeof_x; num_4])).2 = None.
Proof.
  split; [reflexivity|].
  exact (proj1 (variables_of_parsed_tokens
                  (TOK_OPCODE "INT_ADD" [var_x; num_1_sizeof_x; num_4]) eq_refl)).
Defined.

(** ** The rule class *)

Lemma mapM_cons {A B} (f : A → result B) a l :
  mapM f (a :: l) = rbind (f a) (λ b, rbind (mapM f l) (λ bs, inr (b :: bs))).
Proof. reflexivity. Qed.

Lemma to_pretty_parser_built t : parser_built t = true → ∃ s, to_pretty t = inr s.
Proof. intros (s & Hs & _)%pretty_parentheses. eauto. Qed.

Lemma pretty_constraints_parser_built cs :
  forallb (λ c, parser_built (_left c) && parser_built (_right c)) cs = true →
  ∃ lines, mapM (λ constraint,
                   p <-? constraint_to_pretty constraint;
                   inr ("    " +:+ p)) cs = inr lines.
Proof.
  induction cs as [|c cs IH]; [by eexists|].
  cbn [forallb]. intros [[Hl Hr]%andb_prop Hcs]%andb_prop.
  destruct (to_pretty_parser_built _ Hl) as (l & Hpl).
  destruct (to_pretty_parser_built _ Hr) as (r & Hpr).
  destruct (IH Hcs) as (lines & Hlines).
  eexists. rewrite mapM_cons, Hlines.
  unfold constraint_to_pretty. by rewrite Hpl, Hpr.
Qed.

Lemma explanation_parser_built self :
  parser_built_rule self = true → ∃ comment, _get_explanation_docstring self = inr comment.
Proof.
  unfold parser_built_rule.
  intros [[[_ Hm]%andb_prop Hr]%andb_prop Hcs]%andb_prop.
  destruct (to_pretty_parser_built _ Hm) as (m & Hpm).
  destruct (to_pretty_parser_built _ Hr) as (r & Hpr).
  destruct (pretty_constraints_parser_built _ Hcs) as (lines & Hlines).
  unfold _get_explanation_docstring, _get_pretty_rule. rewrite Hpm, Hpr. cbn.
  destruct (_constraints self); [by eexists|].
  rewrite Hlines. by eexists.
Qed.

(** X12: for a rule as the parser hands it over, the comment, the header
    and [getOpList] never fail: [emit_c_code] raises exactly when
    [emit_apply_op], run on a fresh emitter, raises, and with the same
    exception; when it returns, the text is the header, an empty line,
    the comment, [getOpList], an empty line and [applyOp], in this
    order. *)
Theorem emit_c_code_fails_with_emit_apply_op self :
  parser_built_rule self = true →
  ∃ comment oplist,
    _get_explanation_docstring self = inr comment
    ∧ _emit_get_oplist self = inr oplist
    ∧ match run_emit_apply_op (_name self) (_match_expr self) (_constraints self)
              (_replace_expr self) with
      | inl e => emit_c_code self = inl e
      | inr apply_op =>
          emit_c_code self
          = inr (_emit_header self +:+ nl +:+ nl +:+ comment +:+ nl +:+ oplist
                 +:+ nl +:+ nl +:+ apply_op)
      end.
Proof.
  intros Hself.
  destruct (explanation_parser_built self Hself) as (comment & Hcomment).
  unfold parser_built_rule in Hself.
  apply andb_prop in Hself as [[[Hop _]%andb_prop _]%andb_prop _].
  assert (∃ oplist, _emit_get_oplist self = inr oplist) as (oplist & Hoplist).
  { unfold _emit_get_oplist. destruct (_match_expr self); try done. by eexists. }
  exists comment, oplist. split_and!; [done|done|].
  unfold emit_c_code. rewrite Hcomment, Hoplist. cbn.
  destruct (run_emit_apply_op _ _ _ _) as [e|apply_op]; [done|].
  cbn. by rewrite ?string_app_assoc.
Qed.

Lemma emit_c_code_fails_with_emit_apply_op_witness :
  let self := {| _name := "AddZero";
                 _match_expr := TOK_OPCODE "INT_ADD" [var_x; num_4];
                 _constraints := [];
                 _replace_expr := TOK_OPCODE "COPY" [var_x] |} in
  parser_built_rule self = true ∧ emit_c_code self = inl AttributeError.
Proof.
  cbn zeta. split; [reflexivity|].
  destruct (emit_c_code_fails_with_emit_apply_op
              {| _name := "AddZero";
                 _match_expr := TOK_OPCODE "INT_ADD" [var_x; num_4];
                 _constraints := [];
                 _replace_expr := TOK_OPCODE "COPY" [var_x] |} eq_refl)
    as (comment & oplist & _ & _ & H).
  exact H.
Defined.

(** ** Numbers in a match expression *)

Lemma parse_number_literal_size results t :
  parse_number results = inr t →
  (∀ num sep v, results ≠ [inl num; sep; inr v]) →
  ∃ v s r sv, t = TOK_NUMBER v (inl s) r sv.
Proof.
  unfold parse_number, TOK_NUMBER_init. intros H Hsize.
  destruct results as [|[num|] [|sep [|[size|v] [|]]]]; try done.
  - destruct (int0 num); [done|]. cbn in H. injection H as <-. eauto.
  - destruct (int0 num); [done|]. cbn in H.
    destruct (int0 size); [done|]. cbn in H. injection H as <-. eauto.
  - by destruct (Hsize num sep v).
Qed.

(** X13: a number the parser builds without a size, or with a number as
    its size, is not matchable: an opcode with such a number among its
    arguments is never got through by [_emit_check_opcode_children], so
    a rule with a plain number in its match expression does not compile.
    Only a size [|x|] lets a number through. *)
Theorem plain_numbers_never_match results t :
  parse_number results = inr t →
  (∀ num sep v, results ≠ [inl num; sep; inr v]) →
  matchable t = false
  ∧ ∀ name before after target n st,
      ∃ e, _emit_check_opcode_children target (TOK_OPCODE name (before ++ t :: after)) n st
           = inl e.
Proof.
  intros Ht Hsize.
  destruct (parse_number_literal_size _ _ Ht Hsize) as (v & s & r & sv & ->).
  split; [done|].
  intros name before after target n st.
  destruct (_emit_check_opcode_children target _ n st) as [e|[out st']] eqn:H;
    [by eauto|].
  apply check_opcode_children_matchable in H as [_ H].
  cbn [matchable] in H. apply andb_prop in H as [H _].
  rewrite forallb_app in H. apply andb_prop in H as [_ H]. done.
Qed.

Lemma plain_numbers_never_match_witness :
  parse_number [inl "4"] = inr num_4
  ∧ ∃ e, _emit_check_opcode_children "op" (TOK_OPCODE "INT_LEFT" ([var_x] ++ num_4 :: []))
           2 Emitter_init = inl e.
Proof.
  split; [reflexivity|].
  apply (proj2 (plain_numbers_never_match [inl "4"] num_4 eq_refl
                  ltac:(intros num sep v; discriminate))).
Defined.

(** ** The size of a created output *)

(** X14: [_emit_create_opcode] prints [get_size] of the opcode as the
    size of the new output varnode; for an opcode whose first argument is
    a variable, and which is neither [PIECE] nor boolean, that size is
    [None], and the text reads [data.newUniqueOut(None, ...]. *)
Theorem created_output_size opcode parent_op_name i st out st' :
  _emit_create_opcode opcode parent_op_name i st = inr (out, st') →
  (∃ size before after,
     get_size opcode = inr size
     ∧ out = before +:+ "data.newUniqueOut(" +:+ str size +:+ ", " +:+ after)
  ∧ (∀ name v rest,
       opcode = TOK_OPCODE name (TOK_VAR v :: rest) →
       name ≠ "PIECE" → name ∉ BOOLEAN_OP_NAMES →
       ∃ before after, out = before +:+ "data.newUniqueOut(None, " +:+ after).
Proof.
  intros H.
  assert (∃ size before after,
            get_size opcode = inr size
            ∧ out = before +:+ "data.newUniqueOut(" +:+ str size +:+ ", " +:+ after)
    as (size & before & after & Hsize & ->).
  { destruct opcode as [| | | |name args|];
      try (cbn in H; apply bind_inv in H as (? & ? & _ & H);
           apply bind_inv in H as (? & ? & _ & H); done).
    cbn [_emit_create_opcode] in H.
    apply bind_inv in H as (new_op_name & st1 & _ & H).
    apply bind_inv in H as (new_out_varname & st2 & _ & H).
    apply bind_inv in H as (size & st3 & [Hsize _]%lift_inv & H).
    apply bind_inv in H as (rest & st4 & _ & [-> _]%ret_inv).
    exists size,
      ("  PcodeOp* " +:+ new_op_name +:+ " = data.newOp(" +:+ pretty (length args)
       +:+ ", " +:+ parent_op_name +:+ "->getAddr());" +:+ nl
       +:+ "  data.opSetOpcode(" +:+ new_op_name +:+ ", CPUI_" +:+ name +:+ ");" +:+ nl
       +:+ "  Varnode* " +:+ new_out_varname +:+ " = "),
      (new_op_name +:+ ");" +:+ nl
       +:+ "  data.opInsertBefore(" +:+ new_op_name +:+ ", " +:+ parent_op_name
       +:+ ");" +:+ nl
       +:+ "  data.opSetInput(" +:+ parent_op_name +:+ ", " +:+ new_out_varname
       +:+ ", " +:+ pretty i +:+ ");" +:+ nl +:+ nl +:+ rest).
    split; [done|]. rewrite !string_app_assoc. reflexivity. }
  split; [by eauto 10|].
  intros name v rest -> Hpiece Hbool.
  assert (size = None_) as ->.
  { cbn [get_size] in Hsize. rewrite decide_False in Hsize by done.
    case_decide; [congruence|].
    rewrite decide_False in Hsize by done. congruence. }
  by eexists _, _.
Qed.

Lemma created_output_size_witness :
  ∃ out st',
    _emit_create_opcode (TOK_OPCODE "INT_ADD" [var_x; var_y]) "op" 0 Emitter_init
    = inr (out, st')
    ∧ ∃ before after, out = before +:+ "data.newUniqueOut(None, " +:+ after.
Proof.
  destruct (_emit_create_opcode (TOK_OPCODE "INT_ADD" [var_x; var_y]) "op" 0 Emitter_init)
    as [e|[out st']] eqn:Hrun; [by vm_compute in Hrun|].
  exists out, st'. split; [done|].
  apply (proj2 (created_output_size _ _ _ _ _ _ Hrun) "INT_ADD" "autovar_x" [var_y]);
    [reflexivity|discriminate|].
  intros Hin. by vm_compute in Hin; repeat (apply elem_of_cons in Hin as [Hin|Hin];
    [discriminate Hin|]); apply elem_of_nil in Hin.
Defined.

(** ** Braces *)

Lemma net_braces_app a b : net_braces (a +:+ b) = (net_braces a + net_braces b)%Z.
Proof. unfold net_braces. rewrite !count_char_app. lia. Qed.

Lemma no_braces_net s : no_braces s = true → net_braces s = 0%Z.
Proof.
  unfold no_braces, net_braces. intros [H1 H2]%andb_prop.
  apply bool_decide_eq_true in H1, H2. lia.
Qed.

Lemma count_char_all_chars c p s :
  p c = false → all_chars p s = true → count_char c s = 0.
Proof.
  intros Hc. induction s as [|d s IH]; [done|]. cbn.
  intros [Hd Hs]%andb_prop. rewrite (IH Hs).
  case_decide; [congruence|done].
Qed.

Lemma net_braces_pretty_nat (n : nat) : net_braces (pretty n) = 0%Z.
Proof.
  destruct (pretty_nat_digits n) as [_ H]. unfold net_braces.
  by rewrite (count_char_all_chars "{" is_digit _ eq_refl H),
    (count_char_all_chars "}" is_digit _ eq_refl H).
Qed.

Lemma net_braces_spaces n : net_braces (spaces n) = 0%Z.
Proof. unfold net_braces. by rewrite !count_char_spaces. Qed.

Lemma net_braces_free_name prefix n :
  net_braces prefix = 0%Z → net_braces (free_name prefix n) = 0%Z.
Proof.
  intros H. unfold free_name.
  by rewrite !net_braces_app, H, net_braces_pretty_nat.
Qed.

Lemma net_braces_get_free_name prefix st name st' :
  net_braces prefix = 0%Z →
  _get_free_name prefix st = inr (name, st') → net_braces name = 0%Z.
Proof.
  intros H (n & _ & -> & _)%get_free_name_inv. by apply net_braces_free_name.
Qed.

Lemma net_braces_concat l :
  Forall (λ s, net_braces s = 0%Z) l → net_braces (concat_strings l) = 0%Z.
Proof.
  induction 1 as [|s l Hs _ IH]; [done|].
  cbn. rewrite net_braces_app. lia.
Qed.

Lemma net_braces_join sep l :
  net_braces sep = 0%Z →
  Forall (λ s, net_braces s = 0%Z) l → net_braces (join sep l) = 0%Z.
Proof.
  intros Hsep. induction 1 as [|s l Hs Hl IH]; [done|].
  destruct l as [|y l]; [done|].
  change (join sep (s :: y :: l)) with (s +:+ sep +:+ join sep (y :: l)).
  rewrite !net_braces_app. lia.
Qed.

(** Splits a text at its concatenations, replaces the braces of the
    literals by their number, and leaves the rest to [lia]. *)
Ltac net_literals :=
  rewrite ?net_braces_app, ?net_braces_spaces, ?net_braces_pretty_nat;
  repeat match goal with
         | H : context [net_braces _] |- _ => revert H
         end;
  repeat match goal with
         | |- context [net_braces ?s] =>
             is_var s; generalize (net_braces s); intro
         end;
  repeat match goal with
         | |- context [net_braces ?s] =>
             let v := eval vm_compute in (net_braces s) in
             change (net_braces s) with v
         end;
  intros; lia.

Lemma net_braces_pretty_positive (p : positive) : net_braces (pretty p) = 0%Z.
Proof.
  unfold pretty, pretty_positive, pretty, pretty_N. case_decide; [done|].
  destruct (pretty_N_go_digits (N.pos p) "" eq_refl) as [Hd _]. unfold net_braces.
  by rewrite (count_char_all_chars "{" is_digit _ eq_refl Hd),
    (count_char_all_chars "}" is_digit _ eq_refl Hd).
Qed.

Lemma net_braces_pretty_Z (z : Z) : net_braces (pretty z) = 0%Z.
Proof.
  unfold pretty, pretty_Z. destruct z as [|p|p]; [done| |].
  - apply net_braces_pretty_positive.
  - rewrite net_braces_app, net_braces_pretty_positive. done.
Qed.

Section Val_induction.

Variable P : Val → Prop.

Hypothesis HNone : P None_.

Hypothesis HInt : ∀ z, P (Int z).

Hypothesis HTuple : ∀ items, Forall P items → P (Tuple items).

Fixpoint Val_nested_ind (v : Val) : P v :=
  let fix all (l : list Val) : Forall P l :=
    match l with
    | [] => Forall_nil_2 P
    | x :: r => Forall_cons_2 P x r (Val_nested_ind x) (all r)
    end in
  match v with
  | None_ => HNone
  | Int z => HInt z
  | Tuple items => HTuple items (all items)
  end.

End Val_induction.

Lemma net_braces_str v : net_braces (str v) = 0%Z.
Proof.
  induction v as [|z|items IH] using Val_nested_ind; [done| |].
  - apply net_braces_pretty_Z.
  - assert (net_braces (join ", " (map str items)) = 0%Z) as Hjoin.
    { apply net_braces_join; [done|]. by apply Forall_fmap. }
    destruct items as [|x [|y l]].
    + done.
    + apply Forall_cons in IH as [Hx _]. cbn [str]. net_literals.
    + change (str (Tuple (x :: y :: l)))
        with ("(" +:+ join ", " (map str (x :: y :: l)) +:+ ")").
      net_literals.
Qed.

Lemma no_braces_slice_from n s : no_braces s = true → no_braces (slice_from n s) = true.
Proof.
  unfold no_braces. intros [H1 H2]%andb_prop.
  apply bool_decide_eq_true in H1, H2.
  pose proof (count_char_slice_from "{" n s).
  pose proof (count_char_slice_from "}" n s).
  apply andb_true_intro. split; apply bool_decide_eq_true; lia.
Qed.

Lemma net_braces_to_c t :
  ∀ s, brace_free t = true → to_c t = inr s → net_braces s = 0%Z.
Proof.
  induction t as [name|v IH|v size r sv _|k l r IHl IHr|name args _|elements _]
    using Token_nested_ind; intros s; cbn [brace_free to_c]; try done.
  - intros H%no_braces_net [= <-]. done.
  - intros Hv. destruct (to_c v) as [|a] eqn:Ha; [done|]. intros [= <-].
    specialize (IH a Hv eq_refl). net_literals.
  - intros [H%no_braces_net _]%andb_prop [= <-]. done.
  - intros [Hl Hr]%andb_prop.
    destruct (to_c l) as [|a] eqn:Ha; [done|].
    destruct (to_c r) as [|b] eqn:Hb; [done|]. intros [= <-].
    specialize (IHl a Hl eq_refl). specialize (IHr b Hr eq_refl).
    destruct k; net_literals.
Qed.

Lemma net_braces_mapM (f : Token → result string) args :
  Forall (λ t, ∀ s, brace_free t = true → f t = inr s → net_braces s = 0%Z) args →
  forallb brace_free args = true →
  ∀ l, mapM f args = inr l → Forall (λ s, net_braces s = 0%Z) l.
Proof.
  induction 1 as [|a args Ha _ IH]; intros Hargs l.
  - intros [= <-]. constructor.
  - cbn in Hargs. apply andb_prop in Hargs as [Hb Hrest].
    rewrite mapM_cons.
    destruct (f a) as [|s] eqn:Hs; [done|].
    destruct (mapM f args) as [|l'] eqn:Hl; [done|]. intros [= <-].
    constructor; [by eapply Ha|by eapply IH].
Qed.

Lemma net_braces_to_pretty t :
  ∀ s, brace_free t = true → to_pretty t = inr s → net_braces s = 0%Z.
Proof.
  induction t as [name|v IH|v size r sv IH|k l r IHl IHr|name args IH|elements IH]
    using Token_nested_ind; intros s; cbn [brace_free to_pretty].
  - intros H. pose proof (no_braces_slice_from (String.length "autovar_") _ H) as H'.
    apply no_braces_net in H, H'. by case_match; intros [= <-].
  - intros Hv. destruct (to_pretty v) as [|a] eqn:Ha; [done|]. intros [= <-].
    specialize (IH a Hv eq_refl). net_literals.
  - intros [Hr%no_braces_net Hsize]%andb_prop.
    destruct sv as [z|].
    + destruct size as [sz|sz].
      * apply no_braces_net in Hsize.
        destruct z as [|p|p]; try (intros [= <-]; net_literals).
        do 4 (destruct p as [p|p|]; try (intros [= <-]; net_literals)).
      * destruct z as [|p|p]; try done.
        do 4 (destruct p as [p|p|]; try done). intros [= <-]. done.
    + destruct size as [sz|sz]; [done|].
      destruct (to_pretty sz) as [|a] eqn:Ha; [done|]. intros [= <-].
      specialize (IH sz eq_refl a Hsize Ha). net_literals.
  - intros [Hl Hr]%andb_prop.
    destruct (to_pretty l) as [|a] eqn:Ha; [done|].
    destruct (to_pretty r) as [|b] eqn:Hb; [done|]. intros [= <-].
    specialize (IHl a Hl eq_refl). specialize (IHr b Hr eq_refl).
    destruct k; net_literals.
  - intros [Hname%no_braces_net Hargs]%andb_prop.
    destruct (mapM to_pretty args) as [|l] eqn:Hl; [done|]. intros [= <-].
    pose proof (net_braces_join ", " l eq_refl
                  (net_braces_mapM to_pretty args IH Hargs l Hl)) as Hjoin.
    net_literals.
  - intros Hargs.
    destruct (mapM to_pretty elements) as [|l] eqn:Hl; [done|]. intros [= <-].
    exact (net_braces_join " | " l eq_refl
             (net_braces_mapM to_pretty elements IH Hargs l Hl)).
Qed.

Lemma lower_char_brace c :
  (lower_char c = "{"%char → c = "{"%char) ∧ (lower_char c = "}"%char → c = "}"%char).
Proof. destruct c as [[] [] [] [] [] [] [] []]; by vm_compute. Qed.

Lemma count_char_lower_brace b s :
  b = "{"%char ∨ b = "}"%char → count_char b (lower s) = count_char b s.
Proof.
  intros Hb. induction s as [|c s IH]; [done|].
  cbn. rewrite IH. f_equal.
  destruct (lower_char_brace c) as [Ho Hc].
  destruct Hb as [-> | ->]; repeat case_decide; try done.
  - exfalso. naive_solver.
  - subst c. by exfalso.
  - exfalso. naive_solver.
  - subst c. by exfalso.
Qed.

Lemma no_braces_lower s : no_braces s = true → no_braces (lower s) = true.
Proof.
  unfold no_braces. by rewrite !count_char_lower_brace by auto.
Qed.

Lemma count_char_rsplit1_last c sep s :
  (count_char c (rsplit1_last sep s) ≤ count_char c s)%nat.
Proof.
  induction s as [|d s IH]; [done|]. cbn.
  destruct (contains_char sep s); [lia|]. case_decide; cbn; lia.
Qed.

Lemma no_braces_rsplit1_last sep s :
  no_braces s = true → no_braces (rsplit1_last sep s) = true.
Proof.
  unfold no_braces. intros [H1 H2]%andb_prop.
  apply bool_decide_eq_true in H1, H2.
  pose proof (count_char_rsplit1_last "{" sep s).
  pose proof (count_char_rsplit1_last "}" sep s).
  apply andb_true_intro. split; apply bool_decide_eq_true; lia.
Qed.

Lemma net_braces_for_enumerate {A} (body : nat → A → M string) l :
  Forall (λ x, ∀ i st c st', body i x st = inr (c, st') → net_braces c = 0%Z) l →
  ∀ i st out st', for_enumerate body i l st = inr (out, st') → net_braces out = 0%Z.
Proof.
  induction 1 as [|x l Hx _ IH]; intros i st out st' H.
  - by apply ret_inv in H as [-> _].
  - apply for_enumerate_cons_inv in H as (c & st1 & cs & H1 & H2 & ->).
    apply Hx in H1. apply IH in H2. net_literals.
Qed.

Lemma net_braces_create_varnode name source n st code st' :
  net_braces name = 0%Z → net_braces source = 0%Z →
  _emit_create_varnode name source n st = inr (code, st') → net_braces code = 0%Z.
Proof.
  intros Hname Hsource [= <- _]. case_decide; net_literals.
Qed.

Lemma net_braces_check_constant_equal target arg n code :
  net_braces target = 0%Z → brace_free arg = true →
  _emit_check_constant_equal target (OTok arg) n = inr code → net_braces code = 0%Z.
Proof.
  intros Htarget Harg. unfold _emit_check_constant_equal, masked_const_decl.
  destruct arg as [| |v [s|size] r sv|k a b| |]; try done.
  - cbn [brace_free] in Harg. apply andb_prop in Harg as [Hr%no_braces_net Hsize].
    cbn -[to_c]. destruct (to_c size) as [|sz] eqn:Hsz; [done|]. intros [= <-].
    pose proof (net_braces_to_c size sz Hsize Hsz). net_literals.
  - cbn -[to_c brace_free].
    destruct (to_c (TOK_BINARY_OPERATION k a b)) as [|c] eqn:Hc; [done|]. intros [= <-].
    pose proof (net_braces_to_c _ c Harg Hc). net_literals.
Qed.

Lemma net_braces_check_opcode_with children varnode opcode n st out st' :
  (∀ v, to_c varnode = inr v → net_braces v = 0%Z) → brace_free opcode = true →
  (∀ target m s code s', net_braces target = 0%Z →
     children target opcode m s = inr (code, s') → net_braces code = 0%Z) →
  _emit_check_opcode_with children varnode opcode n st = inr (out, st') →
  net_braces out = 0%Z.
Proof.
  intros Hvarnode Hopcode Hch. unfold _emit_check_opcode_with.
  intros (v & st1 & [Hv _]%lift_inv & H)%bind_inv.
  apply bind_inv in H as (pcode_varname & st2 & Hp & H).
  apply bind_inv in H as (name & st3 & [Hname _]%lift_inv & H).
  apply bind_inv in H as (rest & st4 & Hrest & [-> _]%ret_inv).
  apply Hvarnode in Hv.
  apply net_braces_get_free_name in Hp; [|done].
  apply Hch in Hrest; [|done].
  assert (net_braces name = 0%Z) as Hn.
  { destruct opcode as [nm| | |k a b|nm args|]; try done.
    - injection Hname as <-. by apply no_braces_net.
    - injection Hname as <-. by destruct k.
    - injection Hname as <-. cbn in Hopcode.
      apply andb_prop in Hopcode as [Ho _]. by apply no_braces_net. }
  unfold _emit_check_equality, _emit_check. net_literals.
Qed.

Lemma net_braces_check_against children comm operand n arg st code st' :
  brace_free arg = true → net_braces operand = 0%Z →
  (∀ target m s out s', net_braces target = 0%Z →
     children target arg m s = inr (out, s') → net_braces out = 0%Z) →
  check_against children comm operand n arg st = inr (code, st') →
  net_braces code = 0%Z.
Proof.
  intros Harg Hoperand Hch. unfold check_against.
  intros (c & st1 & H & [-> _]%ret_inv)%bind_inv.
  assert (net_braces c = 0%Z) as Hc; [|net_literals].
  destruct arg as [name|v|v size r sv|k a b|name args|elements]; try done.
  - cbn in Harg. apply no_braces_net in Harg. case_decide.
    + apply ret_inv in H as [-> _]. unfold _emit_check_equality, _emit_check.
      net_literals.
    + apply bind_inv in H as (u & st2 & _ & H).
      eapply net_braces_create_varnode; [| |exact H]; done.
  - apply lift_inv in H as [H _].
    eapply net_braces_check_constant_equal; [| |exact H]; done.
  - apply lift_inv in H as [H _].
    eapply net_braces_check_constant_equal; [| |exact H]; done.
  - destruct comm.
    + eapply net_braces_check_opcode_with; [| |exact Hch|exact H]; [|done].
      by intros v [= <-].
    + apply bind_inv in H as (varnode_name & st2 & Hname & H).
      apply bind_inv in H as (decl & st3 & Hdecl & H).
      apply bind_inv in H as (chk & st4 & Hchk & [-> _]%ret_inv).
      apply net_braces_get_free_name in Hname; [|done].
      apply net_braces_create_varnode in Hdecl; [|done..].
      eapply net_braces_check_opcode_with in Hchk; [|by intros v [= <-]|done|exact Hch].
      net_literals.
Qed.

Lemma net_braces_check_child children target lambda_args n i arg st code st' :
  brace_free arg = true → net_braces target = 0%Z →
  (∀ names, lambda_args = Some names →
            net_braces names.1 = 0%Z ∧ net_braces names.2 = 0%Z) →
  (∀ t m s out s', net_braces t = 0%Z →
     children t arg m s = inr (out, s') → net_braces out = 0%Z) →
  check_child children target lambda_args n i arg st = inr (code, st') →
  net_braces code = 0%Z.
Proof.
  intros Harg Htarget Hnames Hch (operand & Hsel & Hc)%check_child_inv.
  eapply net_braces_check_against; [exact Harg| |exact Hch|exact Hc].
  unfold select_target, input_of in Hsel.
  destruct lambda_args as [[l r]|].
  - destruct (Hnames _ eq_refl) as [Hl Hr].
    destruct i as [|[|i]]; [| |done]; by apply ret_inv in Hsel as [-> _].
  - apply ret_inv in Hsel as [-> _]. net_literals.
Qed.

Lemma net_braces_check_opcode_children opcode :
  ∀ target n st out st',
    brace_free opcode = true → net_braces target = 0%Z →
    _emit_check_opcode_children target opcode n st = inr (out, st') →
    net_braces out = 0%Z.
Proof.
  induction opcode as [name|v _|v size r sv _|k l r _ _|name args IH|elements _]
    using Token_nested_ind; intros target n st out st' Hfree Htarget H;
    try (cbn in H; apply bind_inv in H as (? & ? & _ & H); done).
  cbn [_emit_check_opcode_children] in H.
  apply bind_inv in H as (pretty_opcode & st1 & [Hpretty _]%lift_inv & H).
  apply net_braces_to_pretty in Hpretty; [|done].
  cbn [brace_free] in Hfree. apply andb_prop in Hfree as [Hname Hargs].
  apply Forall_of_forallb in Hargs.
  assert (∀ lambda_args m,
            (∀ names, lambda_args = Some names →
                      net_braces names.1 = 0%Z ∧ net_braces names.2 = 0%Z) →
            Forall (λ x, ∀ i st c st1,
                      check_child _emit_check_opcode_children target lambda_args m i x st
                      = inr (c, st1) → net_braces c = 0%Z) args) as Hloop.
  { intros lambda_args m Hnames.
    rewrite Forall_forall in IH. rewrite Forall_forall in Hargs.
    apply Forall_forall. intros arg Hin i s c s1 Hc.
    eapply net_braces_check_child;
      [exact (Hargs _ Hin)|exact Htarget|exact Hnames| |exact Hc].
    intros t m' s' o s'' Ht Hrec. by eapply (IH _ Hin); [apply Hargs| |]. }
  case_decide as Hcomm.
  - apply bind_inv in H as (check_lambda_name & st2 & Hn1 & H).
    apply bind_inv in H as (varnode_left_name & st3 & Hn2 & H).
    apply bind_inv in H as (varnode_right_name & st4 & Hn3 & H).
    apply bind_inv in H as (body & st5 & Hbody & H).
    apply bind_inv in H as (name_a & st6 & Hn4 & H).
    apply bind_inv in H as (name_b & st7 & Hn5 & H).
    apply bind_inv in H as (decl_a & st8 & Hda & H).
    apply bind_inv in H as (decl_b & st9 & Hdb & [-> _]%ret_inv).
    apply net_braces_get_free_name in Hn2, Hn3, Hn4, Hn5; try done.
    apply net_braces_create_varnode in Hda, Hdb; try done; try net_literals.
    assert (net_braces check_lambda_name = 0%Z) as Hn1'.
    { apply get_free_name_inv in Hn1 as (k & _ & -> & _).
      apply net_braces_free_name. rewrite net_braces_app.
      rewrite (no_braces_net (rsplit1_last _ _))
        by by apply no_braces_rsplit1_last, no_braces_lower.
      done. }
    eapply net_braces_for_enumerate in Hbody; [|apply Hloop].
    + net_literals.
    + by intros names [= <-].
  - apply bind_inv in H as (body & st2 & Hbody & [-> _]%ret_inv).
    eapply net_braces_for_enumerate in Hbody; [|by apply Hloop].
    net_literals.
Qed.

Lemma net_braces_check_opcode varnode opcode n st out st' :
  brace_free varnode = true → brace_free opcode = true →
  _emit_check_opcode varnode opcode n st = inr (out, st') → net_braces out = 0%Z.
Proof.
  intros Hv Ho. apply net_braces_check_opcode_with; [|done|].
  - intros v. by apply net_braces_to_c.
  - intros target m s code s' Ht. by apply net_braces_check_opcode_children.
Qed.

Lemma net_braces_or_branches left elements option_name n st out st' :
  brace_free left = true → forallb brace_free elements = true →
  net_braces option_name = 0%Z →
  or_branches left elements option_name n st = inr (out, st') →
  net_braces out = 0%Z.
Proof.
  intros Hleft Hels%Forall_of_forallb Hoption. unfold or_branches.
  intros (first & st1 & Hfirst & H)%bind_inv.
  apply bind_inv in H as (middle & st2 & Hmiddle & H).
  apply bind_inv in H as (final & st3 & Hfinal & [-> _]%ret_inv).
  assert (net_braces first = 0%Z) as Hf.
  { destruct elements as [|e els]; [done|].
    apply Forall_cons in Hels as [He _].
    eapply net_braces_check_opcode; [exact Hleft|exact He|exact Hfirst]. }
  assert (net_braces final = 0%Z) as Hl.
  { destruct (last elements) as [e|] eqn:Hlast; [|done].
    apply last_Some_elem_of in Hlast. rewrite Forall_forall in Hels.
    eapply net_braces_check_opcode; [exact Hleft|by apply Hels|exact Hfinal]. }
  assert (net_braces middle = 0%Z) as Hm.
  { eapply net_braces_for_enumerate; [|exact Hmiddle].
    unfold middle_elements. apply Forall_take, Forall_drop.
    eapply Forall_impl; [exact Hels|]. cbn beta.
    intros e He i s c s' (chk & s1 & Hchk & [-> _]%ret_inv)%bind_inv.
    apply net_braces_check_opcode in Hchk; [|done..]. net_literals. }
  net_literals.
Qed.

Lemma net_braces_to_check_c self n st code m self' st' :
  brace_free_constraint self = true →
  to_check_c self n st = inr (RetTuple code m, self', st') →
  net_braces code = (if has_alternatives self then 1 else 0)%Z
  ∧ (has_alternatives self = true → net_braces (or_func_name_str self') = 0%Z).
Proof.
  unfold brace_free_constraint, has_alternatives.
  intros [Hl Hr]%andb_prop
    [(Heq & _ & _ & Hc)|[(_ & Hop & _ & c & Hc & [= <- _])|(_ & H)]]%to_check_c_inv.
  - apply tok_eq_right_var in Heq.
    destruct (_right self); try done. cbn [is_TOK_OPCODE_OR]. split; [|done].
    destruct Hc as [[_ [= -> _]]|[_ [= -> _]]]; [done|net_literals].
  - destruct (_right self) eqn:Hright; try done. cbn [is_TOK_OPCODE_OR].
    split; [|done].
    eapply net_braces_check_opcode; [exact Hl|exact Hr|exact Hc].
  - destruct H as (els & name & st1 & option_name & st2 & branches
                   & Hright & _ & Hname & Hoption & Hb & -> & [= -> _]).
    rewrite Hright in Hr |- *. cbn [brace_free] in Hr. cbn [is_TOK_OPCODE_OR].
    apply net_braces_get_free_name in Hname; [|done].
    apply net_braces_get_free_name in Hoption; [|done].
    apply net_braces_or_branches in Hb; [|done..].
    split; [net_literals|]. intros _. done.
Qed.

Lemma net_braces_check_constraints cs :
  ∀ n st opened st',
    forallb brace_free_constraint cs = true →
    check_constraints n cs st = inr (opened, st') →
    net_braces opened.1 = Z.of_nat (length opened.2)
    ∧ length opened.2 = length (List.filter has_alternatives cs)
    ∧ Forall (λ p, net_braces (or_func_name_str p.2) = 0%Z) opened.2.
Proof.
  induction cs as [|c cs IH]; intros n st opened st' Hfree.
  { intros [-> _]%ret_inv. by split_and!. }
  cbn [forallb] in Hfree. apply andb_prop in Hfree as [Hc Hcs].
  cbn [check_constraints].
  intros ([[code0 m|code0] c'] & st1 & Hrun & H)%bind_inv; [|done].
  destruct (net_braces_to_check_c _ _ _ _ _ _ _ Hc Hrun) as [Hcode Hname].
  apply to_check_c_level in Hrun as [(-> & Hno & ->)|(-> & Hyes & name & ->)].
  - rewrite decide_False in H by (intros ?; done).
    apply bind_inv in H as ([more fin'] & st2 & Hmore & [-> _]%ret_inv).
    apply IH in Hmore as (Hnet & Hlen & Hall); [|done].
    cbn [List.filter fst snd] in *. rewrite Hno in *.
    split_and!; [net_literals|done|done].
  - rewrite decide_True in H by lia.
    apply bind_inv in H as ([more fin'] & st2 & Hmore & [-> _]%ret_inv).
    apply IH in Hmore as (Hnet & Hlen & Hall); [|done].
    cbn [List.filter fst snd] in *. rewrite Hyes in *.
    split_and!.
    + cbn [length]. rewrite Nat2Z.inj_succ. net_literals.
    + cbn [length]. by rewrite Hlen.
    + constructor; [by apply Hname|done].
Qed.

Lemma net_braces_to_check_c_end self n st out st' :
  net_braces (or_func_name_str self) = 0%Z →
  to_check_c_end self n st = inr (out, st') → net_braces out = (-2)%Z.
Proof.
  intros Hname. unfold to_check_c_end.
  destruct (_right self) as [| | | | |elements]; try done.
  intros (it_var & st1 & Hit & [-> _]%ret_inv)%bind_inv.
  apply net_braces_get_free_name in Hit; [|done].
  net_literals.
Qed.

Lemma net_braces_close_loop l :
  Forall (λ p : nat * TOK_CONSTRAINT, net_braces (or_func_name_str p.2) = 0%Z) l →
  ∀ i st out st',
    for_enumerate (λ _ (p : nat * TOK_CONSTRAINT), to_check_c_end p.2 p.1) i l st
    = inr (out, st') →
    net_braces out = (-2 * Z.of_nat (length l))%Z.
Proof.
  induction 1 as [|p l Hp _ IH]; intros i st out st' H.
  - by apply ret_inv in H as [-> _].
  - apply for_enumerate_cons_inv in H as (c & st1 & cs & H1 & H2 & ->).
    apply net_braces_to_check_c_end in H1; [|done]. apply IH in H2.
    cbn [length]. rewrite Nat2Z.inj_succ. net_literals.
Qed.

Lemma net_braces_close_helpers fin st out st' :
  Forall (λ p : nat * TOK_CONSTRAINT, net_braces (or_func_name_str p.2) = 0%Z) fin →
  close_helpers fin st = inr (out, st') →
  net_braces out = (-2 * Z.of_nat (length fin))%Z.
Proof.
  intros Hfin H. unfold close_helpers in H.
  apply net_braces_close_loop in H; [|by apply Forall_reverse].
  by rewrite length_reverse in H.
Qed.

Lemma net_braces_create_var v parent i st out st' :
  brace_free v = true → net_braces parent = 0%Z →
  _emit_create_var v parent i st = inr (out, st') → net_braces out = 0%Z.
Proof.
  intros Hv Hp (c & st1 & [Hc _]%lift_inv & [-> _]%ret_inv)%bind_inv.
  apply net_braces_to_c in Hc; [|done]. net_literals.
Qed.

Lemma net_braces_create_const c parent i st out st' :
  brace_free c = true →
  _emit_create_const c parent i st = inr (out, st') → net_braces out = 0%Z.
Proof.
  intros Hc. unfold _emit_create_const.
  intros (name & st1 & Hname & H)%bind_inv.
  apply bind_inv in H as (sz & st2 & [Hsz _]%lift_inv & H).
  apply bind_inv in H as (v & st3 & [Hv _]%lift_inv & [-> _]%ret_inv).
  apply net_braces_get_free_name in Hname; [|done].
  apply net_braces_to_c in Hv; [|done].
  assert (net_braces sz = 0%Z) as Hs.
  { destruct c as [| |z [s|size] r sv| | |]; try done.
    - injection Hsz as <-. cbn in Hc. apply andb_prop in Hc as [_ Hc].
      by apply no_braces_net.
    - cbn [brace_free] in Hc. apply andb_prop in Hc as [_ Hc].
      unfold size_to_c in Hsz. destruct size; try done.
      by eapply net_braces_to_c. }
  net_literals.
Qed.

Lemma net_braces_create_opcode opcode :
  ∀ parent i st out st',
    brace_free opcode = true → net_braces parent = 0%Z →
    _emit_create_opcode opcode parent i st = inr (out, st') → net_braces out = 0%Z.
Proof.
  induction opcode as [name|v _|v size r sv _|k l r _ _|name args IH|elements _]
    using Token_nested_ind; intros parent i st out st' Hfree Hparent H;
    try (cbn in H; apply bind_inv in H as (? & ? & _ & H);
         apply bind_inv in H as (? & ? & _ & H); done).
  cbn [_emit_create_opcode] in H.
  apply bind_inv in H as (new_op_name & st1 & Hn1 & H).
  apply bind_inv in H as (new_out_varname & st2 & Hn2 & H).
  apply bind_inv in H as (size & st3 & _ & H).
  apply bind_inv in H as (rest & st4 & Hrest & [-> _]%ret_inv).
  apply net_braces_get_free_name in Hn1, Hn2; try done.
  cbn [brace_free] in Hfree. apply andb_prop in Hfree as [Hname%no_braces_net Hargs].
  apply Forall_of_forallb in Hargs.
  pose proof (net_braces_str size) as Hsize.
  eapply net_braces_for_enumerate in Hrest.
  - net_literals.
  - rewrite Forall_forall in IH. rewrite Forall_forall in Hargs.
    apply Forall_forall. intros arg Hin j s c s1 Hc. cbn beta in Hc.
    specialize (Hargs _ Hin).
    destruct arg;
      try (eapply net_braces_create_const; [|exact Hc]; done);
      [eapply net_braces_create_var; [| |exact Hc]; done
      |eapply (IH _ Hin); [| |exact Hc]; done].
Qed.

Lemma net_braces_create_inputs replace_args st out st' :
  forallb brace_free replace_args = true →
  create_inputs replace_args st = inr (out, st') → net_braces out = 0%Z.
Proof.
  intros Hargs%Forall_of_forallb. unfold create_inputs.
  apply net_braces_for_enumerate.
  eapply Forall_impl; [exact Hargs|]. cbn beta.
  intros arg Harg j s c s1 Hc.
  destruct arg; try done;
    [eapply net_braces_create_var; [| |exact Hc]; done
    |eapply net_braces_create_opcode; [| |exact Hc]; done].
Qed.

Lemma brace_free_yield_from (g h : gen Token) :
  Forall (λ v, brace_free v = true) g.1 → Forall (λ v, brace_free v = true) h.1 →
  Forall (λ v, brace_free v = true) (yield_from g h).1.
Proof.
  intros Hg Hh. unfold yield_from. destruct g.2; [done|]. by apply Forall_app.
Qed.

Lemma brace_free_get_variables t :
  brace_free t = true → Forall (λ v, brace_free v = true) (get_variables t).1.
Proof.
  induction t as [name|v _|v size r sv IH|k l r IHl IHr|name args IH|elements IH]
    using Token_nested_ind; cbn [brace_free get_variables].
  - intros H. by repeat constructor.
  - intros H. by repeat constructor.
  - intros [_ Hsize]%andb_prop. destruct sv; [constructor|].
    destruct size as [s|sz]; [constructor|]. by apply (IH sz).
  - intros [Hl Hr]%andb_prop. apply brace_free_yield_from; auto.
  - intros [_ Hargs]%andb_prop.
    induction IH as [|a args Ha _ IHargs]; [constructor|].
    cbn in Hargs. apply andb_prop in Hargs as [Hb Hrest].
    apply brace_free_yield_from; auto.
  - intros Hargs.
    induction IH as [|a args Ha _ IHargs]; [constructor|].
    cbn in Hargs. apply andb_prop in Hargs as [Hb Hrest].
    apply brace_free_yield_from; auto.
Qed.

Lemma net_braces_declare_all g st out st' :
  Forall (λ v, brace_free v = true) g.1 →
  declare_all g st = inr (out, st') → net_braces out = 0%Z.
Proof.
  intros Hg. unfold declare_all.
  intros (decls & st1 & Hloop & H)%bind_inv.
  destruct g.2; [done|]. apply ret_inv in H as [-> _].
  eapply net_braces_for_enumerate; [|exact Hloop].
  eapply Forall_impl; [exact Hg|]. cbn beta.
  intros v Hv j s c s1 (name & s2 & [Hname _]%lift_inv & [= <- _])%bind_inv.
  apply net_braces_to_c in Hname; [|done]. net_literals.
Qed.

Lemma net_braces_lines (f : nat → string) l :
  (∀ i, net_braces (f i) = 0%Z) → net_braces (concat_strings (f <$> l)) = 0%Z.
Proof.
  intros Hf. apply net_braces_concat, Forall_fmap, Forall_forall. intros i _. apply Hf.
Qed.

(** X15: with no brace in the names and literals of a rule, the text of
    [applyOp] closes as many braces as it opens when no constraint has
    alternatives, and one brace more for each constraint that has: the
    helper of such a constraint is opened once by [to_check_c] and
    closed twice by [to_check_c_end]. *)
Theorem alternatives_unbalance_the_braces
    class_name match_expr constraints replace_expr st out st' :
  no_braces class_name = true →
  brace_free match_expr = true →
  forallb brace_free_constraint constraints = true →
  brace_free replace_expr = true →
  emit_apply_op class_name match_expr constraints replace_expr st = inr (out, st') →
  count_char "}" out
  = count_char "{" out + length (List.filter has_alternatives constraints).
Proof.
  intros Hclass%no_braces_net Hmatch Hcs Hreplace
    (mn & margs & rn & rargs & decls & st1 & checks & st2 & opened & st3
     & closed & st4 & inputs & -> & -> & Hdecls & Hchecks & Hopened & Hclosed
     & Hinputs & ->)%emit_apply_op_inv.
  apply net_braces_declare_all in Hdecls; [|by apply brace_free_get_variables].
  apply net_braces_check_opcode_children in Hchecks; [|done..].
  apply net_braces_check_constraints in Hopened as (Hopened & Hlen & Hnames); [|done].
  apply net_braces_close_helpers in Hclosed; [|done].
  cbn [brace_free] in Hreplace.
  apply andb_prop in Hreplace as [Hrn%no_braces_net Hrargs].
  apply net_braces_create_inputs in Hinputs; [|done].
  pose proof (net_braces_lines insert_input_line
                (seq (length margs) (length rargs - length margs))) as Hins.
  pose proof (net_braces_lines remove_input_line
                (seq (length rargs) (length margs - length rargs))) as Hrem.
  rewrite <- Hlen.
  assert (net_braces
            (apply_op_text class_name mn margs constraints rn rargs decls checks
               opened.1 closed inputs)
          = (- Z.of_nat (length opened.2))%Z) as Hnet.
  { unfold apply_op_text.
    specialize (Hins ltac:(intros i; unfold insert_input_line; net_literals)).
    specialize (Hrem ltac:(intros i; unfold remove_input_line; net_literals)).
    destruct constraints; case_decide; net_literals. }
  unfold net_braces in Hnet. lia.
Qed.

Lemma alternatives_unbalance_the_braces_witness :
  let alternatives := TOK_OPCODE_OR [TOK_OPCODE "INT_LEFT" [var_x; var_y];
                                     TOK_OPCODE "INT_RIGHT" [var_x; var_y]] in
  ∃ out st',
    emit_apply_op "Alt" (TOK_OPCODE "INT_SUB" [var_x; var_y])
      [TOK_CONSTRAINT_init var_x "=" alternatives]
      (TOK_OPCODE "INT_SUB" [var_y; var_x]) Emitter_init = inr (out, st')
    ∧ count_char "}" out = count_char "{" out + 1.
Proof.
  cbn zeta.
  destruct (emit_apply_op "Alt" (TOK_OPCODE "INT_SUB" [var_x; var_y])
              [TOK_CONSTRAINT_init var_x "="
                 (TOK_OPCODE_OR [TOK_OPCODE "INT_LEFT" [var_x; var_y];
                                 TOK_OPCODE "INT_RIGHT" [var_x; var_y]])]
              (TOK_OPCODE "INT_SUB" [var_y; var_x]) Emitter_init)
    as [e|[out st']] eqn:Hrun; [by vm_compute in Hrun|].
  exists out, st'. split; [done|].
  exact (alternatives_unbalance_the_braces "Alt" (TOK_OPCODE "INT_SUB" [var_x; var_y])
           [TOK_CONSTRAINT_init var_x "="
              (TOK_OPCODE_OR [TOK_OPCODE "INT_LEFT" [var_x; var_y];
                              TOK_OPCODE "INT_RIGHT" [var_x; var_y]])]
           (TOK_OPCODE "INT_SUB" [var_y; var_x]) Emitter_init out st'
           eq_refl eq_refl eq_refl eq_refl Hrun).
Defined.
